(** * Salone-Freelance: the job / application / messaging workflow

    A shallow embedding of [jobs/models.py] and [jobs/views.py].

    - Every database table is a finite map from primary key to row.
    - A view is a computation over the database that may stop early with a
      response (a [return] in the middle of the Python function, or an
      exception turned into a response by the framework).
    - A query set is the list of rows of a table; [filter], [exclude],
      [order_by], [count], [exists], [update] and [delete] are the list and
      map operations of the same name. *)

From stdpp Require Import base decidable option numbers list sorting strings gmap fin_maps.

Local Open Scope string_scope.
#[local] Set Warnings "-clear-no-such-hyp".

(** ** The data model ([jobs/models.py]) *)

Inductive Role := Client | Freelancer.
Inductive JobStatus := Open | InProgress | Completed.
Inductive AppStatus := Pending | Accepted | Rejected.

Global Instance Role_eq_dec : EqDecision Role.
Proof. solve_decision. Defined.
Global Instance JobStatus_eq_dec : EqDecision JobStatus.
Proof. solve_decision. Defined.
Global Instance AppStatus_eq_dec : EqDecision AppStatus.
Proof. solve_decision. Defined.

(** [django.contrib.auth.models.User]; the password is kept by the
    authentication framework and is not part of the model. *)
Record User := mkUser {
  username : string;
  email : string;
  first_name : string;
  last_name : string }.

Record Profile := mkProfile {
  role : Role;
  profile_created_at : Z }.

Record Job := mkJob {
  job_title : string;
  job_description : string;
  job_budget : Z;
  job_owner : option nat;
  job_status : JobStatus;
  job_created_at : Z }.

Record Application := mkApplication {
  app_job : nat;
  app_applicant_user : option nat;
  app_applicant_name : string;
  app_proposal : string;
  app_status : AppStatus;
  app_created_at : Z }.

Record Message := mkMessage {
  msg_sender : nat;
  msg_receiver : nat;
  msg_job : nat;
  msg_content : string;
  msg_read : bool;
  msg_timestamp : Z }.

Global Instance User_eq_dec : EqDecision User.
Proof. solve_decision. Defined.
Global Instance Profile_eq_dec : EqDecision Profile.
Proof. solve_decision. Defined.
Global Instance Job_eq_dec : EqDecision Job.
Proof. solve_decision. Defined.
Global Instance Application_eq_dec : EqDecision Application.
Proof. solve_decision. Defined.
Global Instance Message_eq_dec : EqDecision Message.
Proof. solve_decision. Defined.

(** The database: one finite map per table, keyed by primary key.  A
    profile is one-to-one with its user and is keyed by the user's id.
    Each table with an automatic key has its sequence: the largest key the
    database has given in that table so far, which a deletion does not
    lower. *)
Record DB := mkDB {
  users : gmap nat User;
  profiles : gmap nat Profile;
  jobs : gmap nat Job;
  applications : gmap nat Application;
  messages : gmap nat Message;
  seq_users : nat;
  seq_jobs : nat;
  seq_applications : nat;
  seq_messages : nat }.

Definition set_users (f : gmap nat User → gmap nat User) (db : DB) : DB :=
  mkDB (f (users db)) (profiles db) (jobs db) (applications db) (messages db)
       (seq_users db) (seq_jobs db) (seq_applications db) (seq_messages db).
Definition set_profiles (f : gmap nat Profile → gmap nat Profile) (db : DB) : DB :=
  mkDB (users db) (f (profiles db)) (jobs db) (applications db) (messages db)
       (seq_users db) (seq_jobs db) (seq_applications db) (seq_messages db).
Definition set_jobs (f : gmap nat Job → gmap nat Job) (db : DB) : DB :=
  mkDB (users db) (profiles db) (f (jobs db)) (applications db) (messages db)
       (seq_users db) (seq_jobs db) (seq_applications db) (seq_messages db).
Definition set_applications
    (f : gmap nat Application → gmap nat Application) (db : DB) : DB :=
  mkDB (users db) (profiles db) (jobs db) (f (applications db)) (messages db)
       (seq_users db) (seq_jobs db) (seq_applications db) (seq_messages db).
Definition set_messages (f : gmap nat Message → gmap nat Message) (db : DB) : DB :=
  mkDB (users db) (profiles db) (jobs db) (applications db) (f (messages db))
       (seq_users db) (seq_jobs db) (seq_applications db) (seq_messages db).
Definition set_seq_users (n : nat) (db : DB) : DB :=
  mkDB (users db) (profiles db) (jobs db) (applications db) (messages db)
       n (seq_jobs db) (seq_applications db) (seq_messages db).
Definition set_seq_jobs (n : nat) (db : DB) : DB :=
  mkDB (users db) (profiles db) (jobs db) (applications db) (messages db)
       (seq_users db) n (seq_applications db) (seq_messages db).
Definition set_seq_applications (n : nat) (db : DB) : DB :=
  mkDB (users db) (profiles db) (jobs db) (applications db) (messages db)
       (seq_users db) (seq_jobs db) n (seq_messages db).
Definition set_seq_messages (n : nat) (db : DB) : DB :=
  mkDB (users db) (profiles db) (jobs db) (applications db) (messages db)
       (seq_users db) (seq_jobs db) (seq_applications db) n.

(** Field assignment on an instance: [job.status = s], [application.status = s],
    and the [read=True] of a bulk update. *)
Definition with_job_status (s : JobStatus) (j : Job) : Job :=
  mkJob (job_title j) (job_description j) (job_budget j) (job_owner j) s
        (job_created_at j).
Definition with_app_status (s : AppStatus) (a : Application) : Application :=
  mkApplication (app_job a) (app_applicant_user a) (app_applicant_name a)
                (app_proposal a) s (app_created_at a).
Definition with_msg_read (b : bool) (m : Message) : Message :=
  mkMessage (msg_sender m) (msg_receiver m) (msg_job m) (msg_content m) b
            (msg_timestamp m).

(** ** Query sets *)

(** The key the database gives to a new row: one past the larger of the
    table's sequence and the largest key in the table.  A key that was
    given once is not given again, also after its row was deleted. *)
Definition next_pk {A} (seq : nat) (t : gmap nat A) : nat :=
  S (Nat.max seq (foldr Nat.max 0 (map_to_list t).*1)).

(** [qs.exists()] and [qs.count()] for the rows satisfying [P]. *)
Definition qs_exists {A} (P : A → Prop) `{∀ a, Decision (P a)}
    (t : gmap nat A) : bool :=
  bool_decide (Exists (λ r, P r.2) (map_to_list t)).
Definition qs_count {A} (P : A → Prop) `{∀ a, Decision (P a)}
    (t : gmap nat A) : nat :=
  length (filter (λ r, P r.2) (map_to_list t)).

(** [qs.filter(P).update(field=v)] and [qs.filter(P).delete()]. *)
Definition qs_update {A} (P : A → Prop) `{∀ a, Decision (P a)}
    (f : A → A) (t : gmap nat A) : gmap nat A :=
  (λ a, if decide (P a) then f a else a) <$> t.
Definition qs_delete {A} (P : A → Prop) `{∀ a, Decision (P a)}
    (t : gmap nat A) : gmap nat A :=
  filter (λ r, ¬ P r.2) t.

(** [order_by] and Python's [sorted]: a stable sort, here by insertion.
    [le x y] says that [x] may come before [y]. *)
Fixpoint insert_by {A} (le : A → A → bool) (x : A) (l : list A) : list A :=
  match l with
  | [] => [x]
  | y :: l' => if le x y then x :: y :: l' else y :: insert_by le x l'
  end.
Definition sort_by {A} (le : A → A → bool) (l : list A) : list A :=
  foldr (insert_by le) [] l.

(** Ascending and descending order on an integer key. *)
Definition asc {A} (key : A → Z) (x y : A) : bool := bool_decide (key x ≤ key y)%Z.
Definition desc {A} (key : A → Z) (x y : A) : bool := bool_decide (key y ≤ key x)%Z.

(** ** Requests and responses *)

Inductive Method := GET | POST | OtherMethod.
Global Instance Method_eq_dec : EqDecision Method.
Proof. solve_decision. Defined.

(** [req_user] is [None] for an anonymous visitor; [req_POST] is the form;
    [req_now] is the clock read by [auto_now_add]. *)
Record Request := mkRequest {
  req_user : option nat;
  req_method : Method;
  req_POST : gmap string string;
  req_now : Z }.

(** One entry of the dictionary built by [my_conversations]. *)
Record Conversation := mkConversation {
  conv_job : nat;
  conv_other_user : nat;
  last_message_time : Z;
  unread_count : nat }.

(** The template context of each page. *)
Inductive Context :=
| CtxEmpty
| CtxJobs (js : list (nat * Job))
| CtxMyJobs (js : list (nat * Job * nat))
| CtxJob (job : nat * Job)
| CtxJobApplications (job : nat * Job) (apps : list (nat * Application))
| CtxApplications (apps : list (nat * Application))
| CtxConversation (job : nat * Job) (other : nat * User)
    (msgs : list (nat * Message))
| CtxConversations (convs : list Conversation)
| CtxSignup (error : option string) (r : Role).

Inductive Response :=
| Render (template : string) (ctx : Context) (navbar_links : list (string * string))
| Redirect (to : string) (args : list nat)
| HttpResponseForbidden (reason : string)
| HttpResponseNotAllowed
| Http404
| ServerError.

(** ** The view monad: database state and early return *)

Definition View (A : Type) : Type := DB → (Response + A) * DB.

Global Instance View_ret : MRet View := λ A a db, (inr a, db).
Global Instance View_bind : MBind View := λ A B f m db,
  match m db with
  | (inl r, db') => (inl r, db')
  | (inr a, db') => f a db'
  end.

(** [return response] in the middle of a view. *)
Definition respond {A} (r : Response) : View A := λ db, (inl r, db).
Definition read_db : View DB := λ db, (inr db, db).
Definition write_db (f : DB → DB) : View unit := λ db, (inr tt, f db).

Definition run (v : View Response) (db : DB) : Response * DB :=
  match v db with
  | (inl r, db') => (r, db')
  | (inr r, db') => (r, db')
  end.

(** Python truthiness of [request.POST.get(name)]. *)
Definition truthy (v : option string) : bool :=
  match v with
  | Some s => bool_decide (s ≠ EmptyString)
  | None => false
  end.
Definition POST_get (request : Request) (name : string) : option string :=
  req_POST request !! name.

(** The decorators. *)
Definition login_required (request : Request) : View nat :=
  match req_user request with
  | Some u => mret u
  | None => respond (Redirect "login" [])
  end.
Definition require_http_methods (allowed : list Method) (request : Request)
    : View unit :=
  if decide (req_method request ∈ allowed) then mret tt
  else respond HttpResponseNotAllowed.

Definition get_object_or_404 {A} (table : DB → gmap nat A) (pk : nat) : View A :=
  db ← read_db;
  match table db !! pk with
  | Some a => mret a
  | None => respond Http404
  end.

(** Following a foreign key ([application.job]); a dangling key raises
    [DoesNotExist]. *)
Definition related {A} (table : DB → gmap nat A) (pk : nat) : View A :=
  db ← read_db;
  match table db !! pk with
  | Some a => mret a
  | None => respond ServerError
  end.

(** The recurring role test:
    [try: if request.user.profile.role != r: return redirect('home')
     except Profile.DoesNotExist: return redirect('home')]. *)
Definition require_role (r : Role) (user : nat) : View unit :=
  db ← read_db;
  match profiles db !! user with
  | Some p => if decide (role p = r) then mret tt else respond (Redirect "home" [])
  | None => respond (Redirect "home" [])
  end.

(** [v = request.POST.get(name)] followed by the test [if v]: the value when
    it is present and not the empty string. *)
Definition form_value (request : Request) (name : string) : option string :=
  let v := POST_get request name in
  if truthy v then v else None.

(** [Model.objects.create(...)]. *)
Definition create_user (u : User) : View nat :=
  db ← read_db;
  let pk := next_pk (seq_users db) (users db) in
  write_db (set_users (insert pk u));;
  write_db (set_seq_users pk);;
  mret pk.
Definition create_job (j : Job) : View nat :=
  db ← read_db;
  let pk := next_pk (seq_jobs db) (jobs db) in
  write_db (set_jobs (insert pk j));;
  write_db (set_seq_jobs pk);;
  mret pk.
Definition create_application (a : Application) : View nat :=
  db ← read_db;
  let pk := next_pk (seq_applications db) (applications db) in
  write_db (set_applications (insert pk a));;
  write_db (set_seq_applications pk);;
  mret pk.
Definition create_message (m : Message) : View nat :=
  db ← read_db;
  let pk := next_pk (seq_messages db) (messages db) in
  write_db (set_messages (insert pk m));;
  write_db (set_seq_messages pk);;
  mret pk.

(** ** The views ([jobs/views.py]) *)

Definition logout_view (request : Request) : View Response :=
  mret (Redirect "home" []).

Definition navbar_links_for (user : option nat) (db : DB) : list (string * string) :=
  match user with
  | None => [("Sign Up", "choose_role"); ("Login", "login")]
  | Some u =>
      let links :=
        match role <$> profiles db !! u with
        | Some Client =>
            [("Home", "home"); ("Post Job", "post_job"); ("My Jobs", "my_jobs");
             ("Messages", "my_conversations")]
        | Some Freelancer =>
            [("Home", "home"); ("Available Jobs", "available_jobs");
             ("My Applications", "my_applications");
             ("Messages", "my_conversations")]
        | None => []
        end in
      links ++ [("Logout", "logout")]
  end.

Definition render_with_nav (request : Request) (template_name : string)
    (context : Context) : View Response :=
  db ← read_db;
  mret (Render template_name context (navbar_links_for (req_user request) db)).

Definition home (request : Request) : View Response :=
  render_with_nav request "home.html" CtxEmpty.

Definition available_jobs (request : Request) : View Response :=
  match req_user request with
  | None => respond (Redirect "home" [])
  | Some user =>
      require_role Freelancer user;;
      db ← read_db;
      let js := sort_by (desc (job_created_at ∘ snd))
                  (filter (λ r, job_status r.2 = Open) (map_to_list (jobs db))) in
      render_with_nav request "jobs/available_jobs.html" (CtxJobs js)
  end.

(** An integer column holds a signed 64-bit integer; handing the database
    anything else raises [OverflowError] before a row is written. *)
Definition fits_integer_column (n : Z) : Prop := (- 2 ^ 63 ≤ n < 2 ^ 63)%Z.
Global Instance fits_integer_column_dec n : Decision (fits_integer_column n).
Proof. unfold fits_integer_column. apply _. Defined.

Section PostJob.

(** Python's [int] on a form string: [None] where it raises [ValueError]. *)
Variable int : string → option Z.

Definition post_job (request : Request) : View Response :=
  user ← login_required request;
  require_role Client user;;
  let page := render_with_nav request "jobs/post_job.html" CtxEmpty in
  if decide (req_method request = POST) then
    match form_value request "title", form_value request "description",
          form_value request "budget" with
    | Some title, Some description, Some budget =>
        let budget_value := default 0%Z (int budget) in
        if decide (fits_integer_column budget_value) then
          create_job (mkJob title description budget_value (Some user) Open
                            (req_now request));;
          mret (Redirect "home" [])
        else respond ServerError
    | _, _, _ => page
    end
  else page.

End PostJob.

Definition apply_job (request : Request) (job_id : nat) : View Response :=
  user ← login_required request;
  require_role Freelancer user;;
  job ← get_object_or_404 jobs job_id;
  let page := render_with_nav request "jobs/apply_job.html" (CtxJob (job_id, job)) in
  if decide (req_method request = POST) then
    match form_value request "applicant_name", form_value request "proposal" with
    | Some applicant_name, Some proposal =>
        create_application
          (mkApplication job_id (Some user) applicant_name proposal Pending
                         (req_now request));;
        mret (Redirect "available_jobs" [])
    | _, _ => page
    end
  else page.

Definition choose_role (request : Request) : View Response :=
  match req_user request with
  | Some _ => mret (Redirect "home" [])
  | None => render_with_nav request "registration/choose_role.html" CtxEmpty
  end.

Definition my_jobs (request : Request) : View Response :=
  user ← login_required request;
  require_role Client user;;
  db ← read_db;
  let owned := filter (λ r, job_owner r.2 = Some user ∧ job_status r.2 ≠ Completed)
                 (map_to_list (jobs db)) in
  let annotated :=
    (λ r, (r, qs_count (λ a, app_job a = r.1 ∧ app_status a ≠ Rejected)
                (applications db))) <$> owned in
  let js := sort_by (desc (job_created_at ∘ snd ∘ fst)) annotated in
  render_with_nav request "jobs/my_jobs.html" (CtxMyJobs js).

Definition job_applications (request : Request) (job_id : nat) : View Response :=
  user ← login_required request;
  job ← get_object_or_404 jobs job_id;
  if decide (job_owner job = Some user) then
    db ← read_db;
    let apps := filter (λ r, app_job r.2 = job_id ∧ app_status r.2 ≠ Rejected)
                  (map_to_list (applications db)) in
    render_with_nav request "jobs/job_applications.html"
      (CtxJobApplications (job_id, job) apps)
  else mret (Redirect "home" []).

Definition accept_application (request : Request) (app_id : nat) : View Response :=
  user ← login_required request;
  require_http_methods [POST] request;;
  application ← get_object_or_404 applications app_id;
  job ← related jobs (app_job application);
  if decide (job_owner job = Some user) then
    write_db (set_applications (insert app_id (with_app_status Accepted application)));;
    write_db (set_jobs (insert (app_job application) (with_job_status InProgress job)));;
    mret (Redirect "job_applications" [app_job application])
  else respond (HttpResponseForbidden "Not authorized to accept this application").

Definition reject_application (request : Request) (app_id : nat) : View Response :=
  user ← login_required request;
  require_http_methods [POST] request;;
  application ← get_object_or_404 applications app_id;
  job ← related jobs (app_job application);
  if decide (job_owner job = Some user) then
    write_db (set_applications (insert app_id (with_app_status Rejected application)));;
    mret (Redirect "job_applications" [app_job application])
  else respond (HttpResponseForbidden "Not authorized to reject this application").

(** [exclude(job__status='completed')] joins the job table. *)
Definition job_not_completed (db : DB) (a : Application) : Prop :=
  ∃ j, jobs db !! app_job a = Some j ∧ job_status j ≠ Completed.
Global Instance job_not_completed_dec db a : Decision (job_not_completed db a).
Proof.
  unfold job_not_completed. destruct (jobs db !! app_job a) as [j|].
  - destruct (decide (job_status j = Completed)) as [E|E].
    + right. intros (j' & [= <-] & ?). done.
    + left. eauto.
  - right. intros (j' & [=] & ?).
Defined.

Definition my_applications (request : Request) : View Response :=
  user ← login_required request;
  require_role Freelancer user;;
  db ← read_db;
  let apps := filter (λ r, app_applicant_user r.2 = Some user ∧ job_not_completed db r.2)
                (map_to_list (applications db)) in
  render_with_nav request "jobs/my_applications.html" (CtxApplications apps).

(** The authorization test shared by [conversation] and [clear_chat]. *)
Definition accepted_applicant (job_id user : nat) (a : Application) : Prop :=
  app_job a = job_id ∧ app_applicant_user a = Some user ∧ app_status a = Accepted.
Global Instance accepted_applicant_dec job_id user a :
  Decision (accepted_applicant job_id user a).
Proof. unfold accepted_applicant. apply _. Defined.

(** [Q(sender=user, receiver=other) | Q(sender=other, receiver=user)] on the
    messages of one job. *)
Definition in_thread (job_id user other : nat) (m : Message) : Prop :=
  msg_job m = job_id ∧
  ((msg_sender m = user ∧ msg_receiver m = other) ∨
   (msg_sender m = other ∧ msg_receiver m = user)).
Global Instance in_thread_dec job_id user other m :
  Decision (in_thread job_id user other m).
Proof. unfold in_thread. apply _. Defined.

(** [filter(job=job, receiver=user, sender=other, read=False)]. *)
Definition unread_from (job_id user other : nat) (m : Message) : Prop :=
  msg_job m = job_id ∧ msg_receiver m = user ∧ msg_sender m = other ∧
  msg_read m = false.
Global Instance unread_from_dec job_id user other m :
  Decision (unread_from job_id user other m).
Proof. unfold unread_from. apply _. Defined.

(** [filter(job=job, sender__in=[user, other], receiver__in=[user, other])]. *)
Definition in_chat (job_id user other : nat) (m : Message) : Prop :=
  msg_job m = job_id ∧ msg_sender m ∈ [user; other] ∧ msg_receiver m ∈ [user; other].
Global Instance in_chat_dec job_id user other m :
  Decision (in_chat job_id user other m).
Proof. unfold in_chat. apply _. Defined.

Definition thread_messages (job_id user other : nat) (db : DB)
    : list (nat * Message) :=
  sort_by (asc (msg_timestamp ∘ snd))
    (filter (λ r, in_thread job_id user other r.2) (map_to_list (messages db))).

(** The query set [messages] is lazy: it is built before the bulk update
    and run when the template iterates it, after the update. *)
Definition conversation (request : Request) (job_id user_id : nat) : View Response :=
  user ← login_required request;
  job ← get_object_or_404 jobs job_id;
  other ← get_object_or_404 users user_id;
  db ← read_db;
  let is_job_owner := bool_decide (Some user = job_owner job) in
  let is_accepted_applicant :=
    qs_exists (accepted_applicant job_id user) (applications db) in
  if negb (is_job_owner || is_accepted_applicant) then
    respond (HttpResponseForbidden "Not authorized to view this conversation")
  else
    write_db (set_messages
      (qs_update (unread_from job_id user user_id) (with_msg_read true)));;
    if decide (req_method request = POST) then
      match form_value request "content" with
      | Some content =>
          create_message (mkMessage user user_id job_id content false
                                    (req_now request));;
          mret (Redirect "conversation" [job_id; user_id])
      | None => mret (Redirect "conversation" [job_id; user_id])
      end
    else
      db' ← read_db;
      render_with_nav request "jobs/conversation.html"
        (CtxConversation (job_id, job) (user_id, other)
           (thread_messages job_id user user_id db')).

Definition clear_chat (request : Request) (job_id user_id : nat) : View Response :=
  user ← login_required request;
  require_http_methods [POST] request;;
  job ← get_object_or_404 jobs job_id;
  other ← get_object_or_404 users user_id;
  db ← read_db;
  let is_job_owner := bool_decide (Some user = job_owner job) in
  let is_accepted_applicant :=
    qs_exists (accepted_applicant job_id user) (applications db) in
  if negb (is_job_owner || is_accepted_applicant) then
    respond (HttpResponseForbidden "Not authorized to clear this chat")
  else
    write_db (set_messages (qs_delete (in_chat job_id user user_id)));;
    mret (Redirect "conversation" [job_id; user_id]).

(** [job.applications.exclude(status='accepted')]. *)
Definition not_accepted_for (job_id : nat) (a : Application) : Prop :=
  app_job a = job_id ∧ app_status a ≠ Accepted.
Global Instance not_accepted_for_dec job_id a : Decision (not_accepted_for job_id a).
Proof. unfold not_accepted_for. apply _. Defined.

(** The success message goes to the session, which is not a table. *)
Definition complete_job (request : Request) (job_id : nat) : View Response :=
  user ← login_required request;
  require_http_methods [POST] request;;
  job ← get_object_or_404 jobs job_id;
  if decide (job_owner job = Some user) then
    write_db (set_jobs (insert job_id (with_job_status Completed job)));;
    write_db (set_applications
      (qs_update (not_accepted_for job_id) (with_app_status Rejected)));;
    mret (Redirect "my_jobs" [])
  else respond (HttpResponseForbidden "Not authorized to complete this job").

Definition delete_application (request : Request) (app_id : nat) : View Response :=
  user ← login_required request;
  require_http_methods [POST] request;;
  application ← get_object_or_404 applications app_id;
  if decide (app_applicant_user application ≠ Some user ∨
             app_status application ≠ Rejected) then
    respond (HttpResponseForbidden "Not allowed to delete this application")
  else
    write_db (set_applications (delete app_id));;
    mret (Redirect "my_applications" []).

Definition get_unread_message_count (user : option nat) (db : DB) : nat :=
  match user with
  | None => 0
  | Some u => qs_count (λ m, msg_receiver m = u ∧ msg_read m = false) (messages db)
  end.

(** [msg.sender if msg.receiver == request.user else msg.receiver]. *)
Definition other_user_of (user : nat) (m : Message) : nat :=
  if decide (msg_receiver m = user) then msg_sender m else msg_receiver m.

(** The dictionary [conversations] keeps insertion order: an association
    list, extended at the end.  One turn of the loop: *)
Definition add_conversation (user : nat) (db : DB)
    (conversations : list ((nat * nat) * Conversation)) (msg : nat * Message)
    : list ((nat * nat) * Conversation) :=
  let other_user := other_user_of user msg.2 in
  let job_id := msg_job msg.2 in
  let key := (other_user, job_id) in
  if decide (key ∈ conversations.*1) then conversations
  else conversations ++
    [(key, mkConversation job_id other_user (msg_timestamp msg.2)
             (qs_count (unread_from job_id user other_user) (messages db)))].

(** The key and the entry that a message gives when it opens a
    conversation. *)
Definition conversation_key (user : nat) (msg : nat * Message) : nat * nat :=
  (other_user_of user msg.2, msg_job msg.2).
Definition conversation_entry (user : nat) (db : DB) (msg : nat * Message)
    : (nat * nat) * Conversation :=
  (conversation_key user msg,
   mkConversation (msg_job msg.2) (other_user_of user msg.2)
     (msg_timestamp msg.2)
     (qs_count (unread_from (msg_job msg.2) user (other_user_of user msg.2))
        (messages db))).

Definition involves (user : nat) (m : Message) : Prop :=
  msg_sender m = user ∨ msg_receiver m = user.
Global Instance involves_dec user m : Decision (involves user m).
Proof. unfold involves. apply _. Defined.

Definition conversations_of (user : nat) (db : DB) : list Conversation :=
  let msgs := sort_by (desc (msg_timestamp ∘ snd))
                (filter (λ r, involves user r.2) (map_to_list (messages db))) in
  let conversations := foldl (add_conversation user db) [] msgs in
  sort_by (desc last_message_time) conversations.*2.

Definition my_conversations (request : Request) : View Response :=
  user ← login_required request;
  db ← read_db;
  render_with_nav request "jobs/my_conversations.html"
    (CtxConversations (conversations_of user db)).

Section SignUp.

(** [User.objects.create_user] stores the user name and the e-mail address
    normalized by the framework ([normalize_username],
    [normalize_email]). *)
Variable normalize_username : string → string.
Variable normalize_email : string → string.

(** [signup_client] and [signup_freelancer] differ in the role only.  The
    view tests the posted address against the user names; the user name
    that is stored is the normalized one, and the unique constraint on it
    raises [IntegrityError] before anything is written. *)
Definition signup_as (r : Role) (request : Request) : View Response :=
  require_http_methods [GET; POST] request;;
  match req_user request with
  | Some _ => mret (Redirect "home" [])
  | None =>
      let page := render_with_nav request "registration/signup.html"
                    (CtxSignup None r) in
      if decide (req_method request = POST) then
        match form_value request "email", form_value request "password",
              form_value request "first_name", form_value request "last_name" with
        | Some e, Some _, Some fn, Some ln =>
            db ← read_db;
            if qs_exists (λ u, username u = e) (users db) then
              render_with_nav request "registration/signup.html"
                (CtxSignup (Some "Email already registered.") r)
            else if qs_exists (λ u, username u = normalize_username e) (users db)
            then respond ServerError
            else
              user ← create_user (mkUser (normalize_username e)
                                         (normalize_email e) fn ln);
              write_db (set_profiles (insert user (mkProfile r (req_now request))));;
              mret (Redirect "home" [])
        | _, _, _, _ => page
        end
      else page
  end.
Definition signup_client : Request → View Response := signup_as Client.
Definition signup_freelancer : Request → View Response := signup_as Freelancer.

End SignUp.

(** What the views take from Python and the framework. *)
Record Runtime := mkRuntime {
  py_int : string → option Z;
  py_normalize_username : string → string;
  py_normalize_email : string → string }.

(** ** The URL table ([jobs/urls.py], [marketplace/urls.py]) *)

Inductive Route :=
| url_home
| url_choose_role
| url_signup_client
| url_signup_freelancer
| url_logout
| url_available_jobs
| url_post_job
| url_apply_job (job_id : nat)
| url_my_jobs
| url_job_applications (job_id : nat)
| url_my_applications
| url_accept_application (app_id : nat)
| url_reject_application (app_id : nat)
| url_conversation (job_id user_id : nat)
| url_clear_chat (job_id user_id : nat)
| url_my_conversations
| url_complete_job (job_id : nat)
| url_delete_application (app_id : nat).

Definition dispatch (rt : Runtime) (route : Route) (request : Request)
    : View Response :=
  match route with
  | url_home => home request
  | url_choose_role => choose_role request
  | url_signup_client =>
      signup_client (py_normalize_username rt) (py_normalize_email rt) request
  | url_signup_freelancer =>
      signup_freelancer (py_normalize_username rt) (py_normalize_email rt) request
  | url_logout => logout_view request
  | url_available_jobs => available_jobs request
  | url_post_job => post_job (py_int rt) request
  | url_apply_job job_id => apply_job request job_id
  | url_my_jobs => my_jobs request
  | url_job_applications job_id => job_applications request job_id
  | url_my_applications => my_applications request
  | url_accept_application app_id => accept_application request app_id
  | url_reject_application app_id => reject_application request app_id
  | url_conversation job_id user_id => conversation request job_id user_id
  | url_clear_chat job_id user_id => clear_chat request job_id user_id
  | url_my_conversations => my_conversations request
  | url_complete_job job_id => complete_job request job_id
  | url_delete_application app_id => delete_application request app_id
  end.

(** One request served: the response and the database afterwards. *)
Definition serve (rt : Runtime) (route : Route) (request : Request)
    (db : DB) : Response * DB :=
  run (dispatch rt route request) db.

(** ** A small marketplace used in the examples

    Client 1 owns a finished job 1 and a running job 2; freelancers 2 and 3
    applied to both; client 4 has nothing to do with either job.  Besides
    the messages exchanged, freelancer 2 and client 1 each left a note to
    themselves in the inbox of job 1. *)
Module Demo.

Definition person (name : string) : User := mkUser name name name name.

Definition db : DB := mkDB
  (list_to_map [(1, person "c1"); (2, person "f1"); (3, person "f2");
                (4, person "c2")])
  (list_to_map [(1, mkProfile Client 1); (2, mkProfile Freelancer 2);
                (3, mkProfile Freelancer 3); (4, mkProfile Client 4)])
  (list_to_map [(1, mkJob "Logo" "a logo" 50 (Some 1) Completed 5);
                (2, mkJob "Site" "a site" 0 (Some 1) InProgress 6)])
  (list_to_map [(1, mkApplication 1 (Some 2) "f1" "mine" Accepted 7);
                (2, mkApplication 1 (Some 3) "f2" "mine" Rejected 8);
                (3, mkApplication 2 (Some 2) "f1" "mine" Pending 9);
                (4, mkApplication 2 (Some 3) "f2" "mine" Accepted 9)])
  (list_to_map [(1, mkMessage 1 2 1 "hi" true 10);
                (2, mkMessage 2 1 1 "hello" false 11);
                (3, mkMessage 2 2 1 "note" false 12);
                (4, mkMessage 1 1 1 "todo" false 13);
                (5, mkMessage 3 1 2 "done?" false 14)])
  4 2 4 5.

Definition as_user (u : nat) (method : Method) (form : list (string * string))
    : Request :=
  mkRequest (Some u) method (list_to_map form) 20.

Definition no_int : string → option Z := λ _, None.

Definition runtime : Runtime := mkRuntime no_int id id.

End Demo.

(** The order of the job states, and a sequence of requests served one
    after the other. *)
Definition job_rank (s : JobStatus) : nat :=
  match s with Open => 0 | InProgress => 1 | Completed => 2 end.

Definition is_accept (route : Route) : Prop :=
  match route with url_accept_application _ => True | _ => False end.
Global Instance is_accept_dec route : Decision (is_accept route).
Proof. destruct route; simpl; apply _. Defined.

Definition serve_all (rt : Runtime) (trace : list (Route * Request))
    (db : DB) : DB :=
  foldl (λ d rr, (serve rt rr.1 rr.2 d).2) db trace.

(** The requester is the job's owner, or has an accepted application for the
    job. *)
Definition authorized (db : DB) (job_id user : nat) (job : Job) : Prop :=
  job_owner job = Some user ∨
  ∃ app_id a, applications db !! app_id = Some a ∧
    app_job a = job_id ∧ app_applicant_user a = Some user ∧
    app_status a = Accepted.

Definition is_forbidden (resp : Response) : Prop :=
  ∃ reason, resp = HttpResponseForbidden reason.

(** What [conversation] does to the database when it does not refuse. *)
Definition mark_read (job_id user user_id : nat) (db : DB) : DB :=
  set_messages (qs_update (unread_from job_id user user_id) (with_msg_read true)) db.

(** The pair (job, counterpart) of a conversation, and the messages of the
    user that fall in a pair. *)
Definition conv_key (c : Conversation) : nat * nat :=
  (conv_other_user c, conv_job c).
Definition in_pair (user job_id other : nat) (m : Message) : Prop :=
  involves user m ∧ msg_job m = job_id ∧ other_user_of user m = other.
Global Instance in_pair_dec user job_id other m :
  Decision (in_pair user job_id other m).
Proof. unfold in_pair. apply _. Defined.

(** ** The context processor ([jobs/context_processors.py]) *)

Definition unread_messages (request : Request) (db : DB) : nat :=
  match req_user request with
  | Some u => qs_count (λ m, msg_receiver m = u ∧ msg_read m = false) (messages db)
  | None => 0
  end.

(** ** Notions used to state what the views keep *)

(** A response that turns the request down. *)
Definition is_refusal (resp : Response) : Prop :=
  match resp with
  | HttpResponseForbidden _ | HttpResponseNotAllowed | Http404 | ServerError => True
  | Redirect to _ => to = "login"
  | Render _ _ _ => False
  end.

(** The views that only show a page. *)
Definition shows_only (route : Route) : Prop :=
  match route with
  | url_home | url_choose_role | url_logout | url_available_jobs | url_my_jobs
  | url_job_applications _ | url_my_applications | url_my_conversations => True
  | _ => False
  end.

(** The views behind [login_required]. *)
Definition needs_login (route : Route) : Prop :=
  match route with
  | url_home | url_choose_role | url_signup_client | url_signup_freelancer
  | url_logout | url_available_jobs => False
  | _ => True
  end.

(** The views behind [require_http_methods(["POST"])]. *)
Definition needs_POST (route : Route) : Prop :=
  match route with
  | url_accept_application _ | url_reject_application _ | url_clear_chat _ _
  | url_complete_job _ | url_delete_application _ => True
  | _ => False
  end.

(** Foreign keys point to rows that exist. *)
Definition refs_ok (db : DB) : Prop :=
  (∀ id a, applications db !! id = Some a → is_Some (jobs db !! app_job a)) ∧
  (∀ id m, messages db !! id = Some m →
     is_Some (jobs db !! msg_job m) ∧ is_Some (users db !! msg_receiver m)) ∧
  (∀ u p, profiles db !! u = Some p → is_Some (users db !! u)).

(** No two accounts share a user name. *)
Definition usernames_unique (db : DB) : Prop :=
  ∀ u1 u2 r1 r2, users db !! u1 = Some r1 → users db !! u2 = Some r2 →
    username r1 = username r2 → u1 = u2.

(** * Properties *)

(** ** Query sets *)

Lemma foldr_max_ge (l : list nat) (k : nat) : k ∈ l → (k ≤ foldr Nat.max 0 l)%nat.
Proof.
  induction l as [|x l IH]; intros Hk.
  - by apply elem_of_nil in Hk.
  - apply elem_of_cons in Hk as [->|Hk]; simpl; [lia|].
    specialize (IH Hk). lia.
Qed.

Lemma next_pk_fresh {A} (seq : nat) (t : gmap nat A) :
  t !! next_pk seq t = None.
Proof.
  destruct (t !! next_pk seq t) as [a|] eqn:E; [|done].
  apply elem_of_map_to_list in E.
  assert (next_pk seq t ∈ (map_to_list t).*1) as Hin.
  { apply list_elem_of_fmap. by exists (next_pk seq t, a). }
  apply foldr_max_ge in Hin. unfold next_pk in Hin at 1. lia.
Qed.

Lemma next_pk_above {A} (seq : nat) (t : gmap nat A) : (seq < next_pk seq t)%nat.
Proof. unfold next_pk. lia. Qed.

Lemma qs_exists_true {A} (P : A → Prop) `{∀ a, Decision (P a)} (t : gmap nat A) :
  qs_exists P t = true ↔ ∃ k a, t !! k = Some a ∧ P a.
Proof.
  unfold qs_exists. rewrite bool_decide_eq_true, Exists_exists. split.
  - intros ([k a] & Hin & HP). apply elem_of_map_to_list in Hin. eauto.
  - intros (k & a & Hk & HP). exists (k, a). split; [|done].
    by apply elem_of_map_to_list.
Qed.

Lemma qs_update_lookup {A} (P : A → Prop) `{∀ a, Decision (P a)} (f : A → A)
    (t : gmap nat A) (k : nat) :
  qs_update P f t !! k = (λ a, if decide (P a) then f a else a) <$> t !! k.
Proof. unfold qs_update. by rewrite lookup_fmap. Qed.

Lemma qs_delete_lookup_Some {A} (P : A → Prop) `{∀ a, Decision (P a)}
    (t : gmap nat A) (k : nat) (a : A) :
  qs_delete P t !! k = Some a ↔ t !! k = Some a ∧ ¬ P a.
Proof. unfold qs_delete. by rewrite map_lookup_filter_Some. Qed.

Lemma qs_delete_lookup_None {A} (P : A → Prop) `{∀ a, Decision (P a)}
    (t : gmap nat A) (k : nat) (a : A) :
  t !! k = Some a → P a → qs_delete P t !! k = None.
Proof.
  intros Hk HP. unfold qs_delete. apply map_lookup_filter_None. right.
  intros a' Hk' Hn. simpl in Hn. congruence.
Qed.

(** ** Unfolding a view down to the database operations *)

Ltac view_unfold :=
  unfold serve, dispatch, run;
  unfold home, choose_role, signup_client, signup_freelancer, signup_as,
    logout_view, available_jobs, post_job, apply_job, my_jobs,
    job_applications, my_applications, accept_application,
    reject_application, conversation, clear_chat, my_conversations,
    complete_job, delete_application;
  unfold create_user, create_job, create_application, create_message,
    render_with_nav, get_object_or_404, related, require_role,
    login_required, require_http_methods;
  unfold mbind, View_bind, mret, View_ret, respond, read_db, write_db.

(** ** Accepting, completing, deleting, applying *)

(** C3. [accept_application] by the owner of the application's job: the
    application is accepted and the job is in progress, whatever the job's
    status was; by anyone else: a forbidden response, and the database is
    the one before. *)
Theorem accept_application_spec (request : Request) (app_id user : nat) (db : DB)
    (application : Application) (job : Job) :
  req_user request = Some user →
  req_method request = POST →
  applications db !! app_id = Some application →
  jobs db !! app_job application = Some job →
  (job_owner job = Some user →
     ∃ resp db', run (accept_application request app_id) db = (resp, db') ∧
       app_status <$> applications db' !! app_id = Some Accepted ∧
       job_status <$> jobs db' !! app_job application = Some InProgress) ∧
  (job_owner job ≠ Some user →
     ∃ reason, run (accept_application request app_id) db =
       (HttpResponseForbidden reason, db)).
Proof.
  intros Hu Hm Ha Hj. view_unfold. rewrite Hu, Hm. simpl. rewrite Ha. simpl.
  rewrite Hj. split; intros Ho; case_decide; try done.
  - eexists _, _. split; [done|]. simpl.
    by rewrite !lookup_insert_eq.
  - by eexists.
Qed.

Lemma accept_application_spec_witness :
  ∃ resp db',
    run (accept_application (Demo.as_user 1 POST []) 3) Demo.db = (resp, db') ∧
    app_status <$> applications db' !! 3 = Some Accepted ∧
    job_status <$> jobs db' !! 2 = Some InProgress.
Proof.
  destruct (accept_application_spec (Demo.as_user 1 POST []) 3 1 Demo.db
              (mkApplication 2 (Some 2) "f1" "mine" Pending 9)
              (mkJob "Site" "a site" 0 (Some 1) InProgress 6))
    as [Hown _]; [reflexivity..|].
  exact (Hown eq_refl).
Defined.

(** C4. [complete_job] by the owner: the job is completed; each of its
    applications that was not accepted is rejected; its accepted
    applications, and the applications of other jobs, are as before. *)
Theorem complete_job_spec (request : Request) (job_id user : nat) (db : DB)
    (job : Job) :
  req_user request = Some user →
  req_method request = POST →
  jobs db !! job_id = Some job →
  job_owner job = Some user →
  ∃ resp db', run (complete_job request job_id) db = (resp, db') ∧
    job_status <$> jobs db' !! job_id = Some Completed ∧
    (∀ app_id a, applications db !! app_id = Some a →
       app_job a = job_id → app_status a ≠ Accepted →
       applications db' !! app_id = Some (with_app_status Rejected a)) ∧
    (∀ app_id a, applications db !! app_id = Some a →
       app_job a = job_id → app_status a = Accepted →
       applications db' !! app_id = Some a) ∧
    (∀ app_id a, applications db !! app_id = Some a →
       app_job a ≠ job_id →
       applications db' !! app_id = Some a) ∧
    (∀ app_id, applications db !! app_id = None →
       applications db' !! app_id = None).
Proof.
  intros Hu Hm Hj Ho. view_unfold. rewrite Hu, Hm. simpl. rewrite Hj.
  case_decide; [|done]. eexists _, _. split; [done|]. simpl.
  rewrite lookup_insert_eq. split; [done|].
  split; [|split; [|split]].
  - intros app_id a Ha ? ?. rewrite qs_update_lookup, Ha. simpl.
    case_decide as Hd; unfold not_accepted_for in Hd; naive_solver.
  - intros app_id a Ha ? ?. rewrite qs_update_lookup, Ha. simpl.
    case_decide as Hd; unfold not_accepted_for in Hd; naive_solver.
  - intros app_id a Ha ?. rewrite qs_update_lookup, Ha. simpl.
    case_decide as Hd; unfold not_accepted_for in Hd; naive_solver.
  - intros app_id Ha. by rewrite qs_update_lookup, Ha.
Qed.

Lemma complete_job_spec_witness :
  ∃ resp db', run (complete_job (Demo.as_user 1 POST []) 2) Demo.db = (resp, db') ∧
    job_status <$> jobs db' !! 2 = Some Completed ∧
    app_status <$> applications db' !! 3 = Some Rejected ∧
    app_status <$> applications db' !! 4 = Some Accepted ∧
    applications db' !! 1 = applications Demo.db !! 1.
Proof.
  destruct (complete_job_spec (Demo.as_user 1 POST []) 2 1 Demo.db
              (mkJob "Site" "a site" 0 (Some 1) InProgress 6))
    as (resp & db' & Hrun & Hjob & Hrej & Hacc & Hother & _); [reflexivity..|].
  exists resp, db'. split; [exact Hrun|]. split; [exact Hjob|].
  rewrite (Hrej 3 (mkApplication 2 (Some 2) "f1" "mine" Pending 9)) by done.
  rewrite (Hacc 4 (mkApplication 2 (Some 3) "f2" "mine" Accepted 9)) by done.
  rewrite (Hother 1 (mkApplication 1 (Some 2) "f1" "mine" Accepted 7)) by done.
  done.
Defined.

(** C5. [delete_application] removes the row exactly when the requester is
    the application's [applicant_user] and the status is rejected; in every
    other case the answer is a denial and the database is the one before. *)
Theorem delete_application_spec (request : Request) (app_id user : nat) (db : DB)
    (application : Application) :
  req_user request = Some user →
  req_method request = POST →
  applications db !! app_id = Some application →
  let allowed := app_applicant_user application = Some user ∧
                 app_status application = Rejected in
  (applications (run (delete_application request app_id) db).2 !! app_id = None
     ↔ allowed) ∧
  (allowed →
     run (delete_application request app_id) db =
       (Redirect "my_applications" [], set_applications (delete app_id) db)) ∧
  (¬ allowed →
     ∃ reason, run (delete_application request app_id) db =
       (HttpResponseForbidden reason, db)).
Proof.
  intros Hu Hm Ha allowed. subst allowed. view_unfold. rewrite Hu, Hm. simpl.
  rewrite Ha. case_decide as Hd; simpl.
  - assert (¬ (app_applicant_user application = Some user ∧
                app_status application = Rejected)) as Hn by naive_solver.
    split; [|split].
    + rewrite Ha. naive_solver.
    + done.
    + by eexists.
  - assert (app_applicant_user application = Some user ∧
            app_status application = Rejected) as Hy.
    { split; apply dec_stable; naive_solver. }
    split; [|split]; [|done..].
    by rewrite lookup_delete_eq.
Qed.

Lemma delete_application_spec_witness :
  run (delete_application (Demo.as_user 3 POST []) 2) Demo.db =
    (Redirect "my_applications" [], set_applications (delete 2) Demo.db).
Proof.
  refine (proj1 (proj2 (delete_application_spec (Demo.as_user 3 POST []) 2 3 Demo.db
            (mkApplication 1 (Some 3) "f2" "mine" Rejected 8) _ _ _)) _);
    [reflexivity..|]. split; reflexivity.
Defined.

(** C9. [apply_job] does not look at the job's status: a freelancer who
    posts a non-empty name and proposal gets a new pending application on
    any existing job.  The application is found afterwards under a key
    that was not in use and was never given before; every other row is as
    it was. *)
Theorem apply_job_spec (request : Request) (job_id user : nat) (db : DB)
    (job : Job) (profile : Profile) (applicant_name proposal : string) :
  req_user request = Some user →
  profiles db !! user = Some profile →
  role profile = Freelancer →
  jobs db !! job_id = Some job →
  req_method request = POST →
  req_POST request !! "applicant_name" = Some applicant_name →
  applicant_name ≠ EmptyString →
  req_POST request !! "proposal" = Some proposal →
  proposal ≠ EmptyString →
  ∃ app_id db',
    run (apply_job request job_id) db = (Redirect "available_jobs" [], db') ∧
    applications db !! app_id = None ∧
    (seq_applications db < app_id)%nat ∧
    applications db' !! app_id =
      Some (mkApplication job_id (Some user) applicant_name proposal Pending
                          (req_now request)) ∧
    (∀ k, k ≠ app_id → applications db' !! k = applications db !! k) ∧
    users db' = users db ∧ profiles db' = profiles db ∧
    jobs db' = jobs db ∧ messages db' = messages db.
Proof.
  intros Hu Hp Hr Hj Hm Hn Hne Hq Hqe.
  exists (next_pk (seq_applications db) (applications db)). eexists. split.
  - view_unfold. rewrite Hu. simpl. rewrite Hp. simpl.
    case_decide; [|done]. rewrite Hj. case_decide; [|done].
    unfold form_value, POST_get. rewrite Hn, Hq. simpl.
    by rewrite !bool_decide_eq_true_2.
  - simpl. split_and!; try done.
    + apply next_pk_fresh.
    + apply next_pk_above.
    + apply lookup_insert_eq.
    + intros k Hk. by apply lookup_insert_ne.
Qed.

Lemma apply_job_spec_witness :
  job_status <$> jobs Demo.db !! 1 = Some Completed ∧
  ∃ app_id db',
    run (apply_job (Demo.as_user 3 POST [("applicant_name", "f2");
                                         ("proposal", "again")]) 1) Demo.db
      = (Redirect "available_jobs" [], db') ∧
    applications Demo.db !! app_id = None ∧
    applications db' !! app_id =
      Some (mkApplication 1 (Some 3) "f2" "again" Pending 20).
Proof.
  split; [reflexivity|].
  destruct (apply_job_spec
    (Demo.as_user 3 POST [("applicant_name", "f2"); ("proposal", "again")])
    1 3 Demo.db (mkJob "Logo" "a logo" 50 (Some 1) Completed 5)
    (mkProfile Freelancer 3) "f2" "again")
    as (app_id & db' & Hrun & Hfree & _ & Hnew & _); try done.
  exists app_id, db'. split_and!; done.
Defined.

(** ** Who may open or clear a thread *)

Lemma authorization_test (db : DB) (job_id user : nat) (job : Job) :
  bool_decide (Some user = job_owner job)
    || qs_exists (accepted_applicant job_id user) (applications db) = true
  ↔ authorized db job_id user job.
Proof.
  rewrite orb_true_iff, bool_decide_eq_true, qs_exists_true.
  unfold authorized, accepted_applicant. naive_solver.
Qed.

Lemma clear_chat_run (request : Request) (job_id user_id user : nat) (db : DB)
    (job : Job) (other : User) :
  req_user request = Some user →
  req_method request = POST →
  jobs db !! job_id = Some job →
  users db !! user_id = Some other →
  run (clear_chat request job_id user_id) db =
    if bool_decide (Some user = job_owner job)
       || qs_exists (accepted_applicant job_id user) (applications db)
    then (Redirect "conversation" [job_id; user_id],
          set_messages (qs_delete (in_chat job_id user user_id)) db)
    else (HttpResponseForbidden "Not authorized to clear this chat", db).
Proof.
  intros Hu Hm Hj Ho. view_unfold. rewrite Hu, Hm. simpl. rewrite Hj, Ho.
  by destruct (_ || _).
Qed.

Lemma conversation_run_view (request : Request) (job_id user_id user : nat)
    (db : DB) (job : Job) (other : User) :
  req_user request = Some user →
  req_method request ≠ POST →
  jobs db !! job_id = Some job →
  users db !! user_id = Some other →
  run (conversation request job_id user_id) db =
    if bool_decide (Some user = job_owner job)
       || qs_exists (accepted_applicant job_id user) (applications db)
    then (Render "jobs/conversation.html"
            (CtxConversation (job_id, job) (user_id, other)
               (thread_messages job_id user user_id
                  (mark_read job_id user user_id db)))
            (navbar_links_for (Some user) (mark_read job_id user user_id db)),
          mark_read job_id user user_id db)
    else (HttpResponseForbidden "Not authorized to view this conversation", db).
Proof.
  intros Hu Hm Hj Ho. view_unfold. rewrite Hu. simpl. rewrite Hj, Ho.
  destruct (_ || _); simpl; [|done]. by case_decide.
Qed.

Lemma conversation_forbidden (request : Request) (job_id user_id user : nat)
    (db : DB) (job : Job) (other : User) :
  req_user request = Some user →
  jobs db !! job_id = Some job →
  users db !! user_id = Some other →
  is_forbidden (run (conversation request job_id user_id) db).1
  ↔ bool_decide (Some user = job_owner job)
    || qs_exists (accepted_applicant job_id user) (applications db) = false.
Proof.
  intros Hu Hj Ho. unfold is_forbidden. view_unfold. rewrite Hu. simpl.
  rewrite Hj, Ho. destruct (_ || _); simpl.
  - split; [|done]. intros [reason Hr]. exfalso.
    destruct (decide (req_method request = POST));
      [destruct (form_value request "content")|]; simpl in Hr; done.
  - split; [done|]. intros _. by eexists.
Qed.

(** C10. [conversation] and [clear_chat] test the requester only: the
    answer is a refusal exactly when the requester is neither the owner of
    the job nor an accepted applicant for it.  The other user only has to
    exist: with any such user an authorized requester gets the thread page,
    and the chat is cleared. *)
Theorem thread_authorization (request : Request) (job_id user_id user : nat)
    (db : DB) (job : Job) (other : User) :
  req_user request = Some user →
  jobs db !! job_id = Some job →
  users db !! user_id = Some other →
  (is_forbidden (run (conversation request job_id user_id) db).1
     ↔ ¬ authorized db job_id user job) ∧
  (req_method request = POST →
     is_forbidden (run (clear_chat request job_id user_id) db).1
       ↔ ¬ authorized db job_id user job) ∧
  (authorized db job_id user job → req_method request = GET →
     ∃ msgs nav, (run (conversation request job_id user_id) db).1 =
       Render "jobs/conversation.html"
         (CtxConversation (job_id, job) (user_id, other) msgs) nav) ∧
  (authorized db job_id user job → req_method request = POST →
     run (clear_chat request job_id user_id) db =
       (Redirect "conversation" [job_id; user_id],
        set_messages (qs_delete (in_chat job_id user user_id)) db)).
Proof.
  intros Hu Hj Ho.
  pose proof (authorization_test db job_id user job) as Hauth.
  assert (¬ authorized db job_id user job ↔
          bool_decide (Some user = job_owner job)
          || qs_exists (accepted_applicant job_id user) (applications db) = false)
    as Hnauth.
  { rewrite <- Hauth. by destruct (_ || _). }
  split; [|split; [|split]].
  - rewrite Hnauth. by eapply conversation_forbidden.
  - intros Hm. rewrite (clear_chat_run _ _ _ _ _ _ _ Hu Hm Hj Ho), Hnauth.
    unfold is_forbidden. destruct (_ || _); simpl.
    + split; [by intros [? ?]|done].
    + split; [done|]. intros _. by eexists.
  - intros Hy Hm. apply Hauth in Hy.
    rewrite (conversation_run_view _ _ _ _ _ _ _ Hu) by (done || by rewrite Hm).
    rewrite Hy. simpl. by eexists _, _.
  - intros Hy Hm. apply Hauth in Hy.
    by rewrite (clear_chat_run _ _ _ _ _ _ _ Hu Hm Hj Ho), Hy.
Qed.

Lemma thread_authorization_witness :
  ¬ authorized Demo.db 1 4 (mkJob "Logo" "a logo" 50 (Some 1) Completed 5) ∧
  is_forbidden (run (conversation (Demo.as_user 4 GET []) 1 2) Demo.db).1 ∧
  ∃ msgs nav, (run (conversation (Demo.as_user 1 GET []) 1 4) Demo.db).1 =
    Render "jobs/conversation.html"
      (CtxConversation (1, mkJob "Logo" "a logo" 50 (Some 1) Completed 5)
                       (4, Demo.person "c2") msgs) nav.
Proof.
  assert (¬ authorized Demo.db 1 4 (mkJob "Logo" "a logo" 50 (Some 1) Completed 5))
    as Hn.
  { intros Hy. apply authorization_test in Hy. vm_compute in Hy. discriminate. }
  split; [exact Hn|]. split.
  - apply (thread_authorization (Demo.as_user 4 GET []) 1 2 4 Demo.db
             (mkJob "Logo" "a logo" 50 (Some 1) Completed 5) (Demo.person "f1"));
      [reflexivity..|exact Hn].
  - refine (proj1 (proj2 (proj2 (thread_authorization (Demo.as_user 1 GET []) 1 4 1
             Demo.db (mkJob "Logo" "a logo" 50 (Some 1) Completed 5)
             (Demo.person "c2") _ _ _))) _ _);
      [reflexivity..|by left|reflexivity].
Defined.

(** ** Sorting *)

Section Sorting.
Context {A : Type} (le : A → A → bool).

Lemma insert_by_perm (x : A) (l : list A) : insert_by le x l ≡ₚ x :: l.
Proof.
  induction l as [|y l IH]; simpl; [done|].
  destruct (le x y); [done|]. rewrite IH. apply Permutation_swap.
Qed.

Lemma sort_by_perm (l : list A) : sort_by le l ≡ₚ l.
Proof.
  induction l as [|x l IH]; simpl; [done|].
  unfold sort_by in *. simpl. by rewrite insert_by_perm, IH.
Qed.

Lemma elem_of_sort_by (l : list A) (x : A) : x ∈ sort_by le l ↔ x ∈ l.
Proof. by rewrite sort_by_perm. Qed.

Hypothesis le_total : ∀ x y, le x y = false → le y x = true.
Hypothesis le_trans : ∀ x y z, le x y = true → le y z = true → le x z = true.

Lemma insert_by_sorted (x : A) (l : list A) :
  StronglySorted (λ a b, le a b = true) l →
  StronglySorted (λ a b, le a b = true) (insert_by le x l).
Proof.
  induction 1 as [|y l Hs IH Hy]; simpl.
  - repeat constructor.
  - destruct (le x y) eqn:E.
    + constructor; [by constructor|]. constructor; [done|].
      eapply Forall_impl; [exact Hy|]. intros z Hz. simpl in Hz. eauto.
    + constructor; [done|]. rewrite insert_by_perm. constructor; [|done].
      by apply le_total.
Qed.

Lemma sort_by_sorted (l : list A) :
  StronglySorted (λ a b, le a b = true) (sort_by le l).
Proof.
  induction l as [|x l IH]; [constructor|].
  unfold sort_by in *. simpl. by apply insert_by_sorted.
Qed.

End Sorting.

Lemma StronglySorted_weaken {A} (R R' : A → A → Prop) (l : list A) :
  (∀ a b, R a b → R' a b) → StronglySorted R l → StronglySorted R' l.
Proof.
  intros HR. induction 1 as [|x l Hs IH Hx]; constructor; [done|].
  eapply Forall_impl; [exact Hx|]. intros y. apply HR.
Qed.

Lemma sort_by_asc {A} (key : A → Z) (l : list A) :
  StronglySorted (λ a b, (key a ≤ key b)%Z) (sort_by (asc key) l).
Proof.
  apply (StronglySorted_weaken (λ a b, asc key a b = true)).
  { intros a b. unfold asc. by rewrite bool_decide_eq_true. }
  apply sort_by_sorted.
  - intros a b. unfold asc. rewrite bool_decide_eq_false, bool_decide_eq_true. lia.
  - intros a b c. unfold asc. rewrite !bool_decide_eq_true. lia.
Qed.

Lemma sort_by_desc {A} (key : A → Z) (l : list A) :
  StronglySorted (λ a b, (key b ≤ key a)%Z) (sort_by (desc key) l).
Proof.
  apply (StronglySorted_weaken (λ a b, desc key a b = true)).
  { intros a b. unfold desc. by rewrite bool_decide_eq_true. }
  apply sort_by_sorted.
  - intros a b. unfold desc. rewrite bool_decide_eq_false, bool_decide_eq_true. lia.
  - intros a b c. unfold desc. rewrite !bool_decide_eq_true. lia.
Qed.

(** ** Threads *)

Lemma in_thread_with_read (job_id user other : nat) (b : bool) (m : Message) :
  in_thread job_id user other (with_msg_read b m) ↔ in_thread job_id user other m.
Proof. done. Qed.

Lemma mark_read_lookup (job_id user user_id : nat) (db : DB) (id : nat) :
  messages (mark_read job_id user user_id db) !! id =
    (λ m, if decide (unread_from job_id user user_id m)
          then with_msg_read true m else m) <$> messages db !! id.
Proof. unfold mark_read. simpl. apply qs_update_lookup. Qed.

Lemma elem_of_thread_messages (job_id user other : nat) (db : DB) (id : nat)
    (m : Message) :
  (id, m) ∈ thread_messages job_id user other db
  ↔ messages db !! id = Some m ∧ in_thread job_id user other m.
Proof.
  unfold thread_messages.
  rewrite elem_of_sort_by, list_elem_of_filter, elem_of_map_to_list. naive_solver.
Qed.

Lemma thread_messages_NoDup (job_id user other : nat) (db : DB) :
  NoDup (thread_messages job_id user other db).*1.
Proof.
  unfold thread_messages. rewrite sort_by_perm.
  eapply sublist_NoDup; [apply (NoDup_fst_map_to_list (messages db))|].
  apply fmap_sublist, sublist_filter.
Qed.

(** C6.  An authorized viewer [user] opening the thread with another user
    [user_id] gets exactly the messages of the job between the two, by
    ascending timestamp, each once; every unread message of the thread
    addressed to the viewer is marked read; the messages the viewer sent
    are unchanged, and so is every message outside the unread ones
    received from [user_id]. *)
Theorem conversation_view_spec (request : Request) (job_id user_id user : nat)
    (db : DB) (job : Job) (other : User) :
  req_user request = Some user →
  req_method request = GET →
  jobs db !! job_id = Some job →
  users db !! user_id = Some other →
  authorized db job_id user job →
  ∃ msgs nav db',
    run (conversation request job_id user_id) db =
      (Render "jobs/conversation.html"
         (CtxConversation (job_id, job) (user_id, other) msgs) nav, db') ∧
    (∀ id m', (id, m') ∈ msgs
       ↔ messages db' !! id = Some m' ∧ in_thread job_id user user_id m') ∧
    (∀ id, id ∈ msgs.*1
       ↔ ∃ m, messages db !! id = Some m ∧ in_thread job_id user user_id m) ∧
    NoDup msgs.*1 ∧
    StronglySorted (λ x y, (msg_timestamp x.2 ≤ msg_timestamp y.2)%Z) msgs ∧
    (∀ id m, messages db !! id = Some m → in_thread job_id user user_id m →
       msg_receiver m = user → msg_read m = false →
       messages db' !! id = Some (with_msg_read true m)) ∧
    (∀ id m, messages db !! id = Some m → msg_sender m = user →
       user_id ≠ user → messages db' !! id = Some m) ∧
    (∀ id m, messages db !! id = Some m →
       ¬ unread_from job_id user user_id m → messages db' !! id = Some m) ∧
    (∀ id, messages db !! id = None → messages db' !! id = None).
Proof.
  intros Hu Hm Hj Ho Hauth. apply authorization_test in Hauth.
  rewrite (conversation_run_view _ _ _ _ _ _ _ Hu) by (done || by rewrite Hm).
  rewrite Hauth. eexists _, _, _. split; [done|].
  split; [|split; [|split; [|split; [|split; [|split; [|split]]]]]].
  - intros id m'. apply elem_of_thread_messages.
  - intros id. rewrite list_elem_of_fmap. split.
    + intros ([id' m'] & -> & Hin). simpl.
      apply elem_of_thread_messages in Hin as [Hl Hin].
      rewrite mark_read_lookup in Hl.
      destruct (messages db !! id') as [m|] eqn:E; [|done].
      exists m. split; [done|]. simpl in Hl. injection Hl as <-.
      by destruct (decide (unread_from job_id user user_id m)).
    + intros (m & Hl & Hin).
      exists (id, if decide (unread_from job_id user user_id m)
                  then with_msg_read true m else m).
      split; [done|]. apply elem_of_thread_messages.
      rewrite mark_read_lookup, Hl. split; [done|].
      by destruct (decide (unread_from job_id user user_id m)).
  - apply thread_messages_NoDup.
  - apply (sort_by_asc (msg_timestamp ∘ snd)).
  - intros id m Hl [Hjob Hdir] Hr Hread. rewrite mark_read_lookup, Hl. simpl.
    rewrite decide_True; [done|]. unfold unread_from. naive_solver.
  - intros id m Hl Hs Hne. rewrite mark_read_lookup, Hl. simpl.
    rewrite decide_False; [done|]. unfold unread_from. naive_solver.
  - intros id m Hl Hn. rewrite mark_read_lookup, Hl. simpl.
    by rewrite decide_False.
  - intros id Hl. by rewrite mark_read_lookup, Hl.
Qed.

Lemma conversation_view_spec_witness :
  ∃ nav db',
    run (conversation (Demo.as_user 1 GET []) 1 2) Demo.db =
      (Render "jobs/conversation.html"
         (CtxConversation (1, mkJob "Logo" "a logo" 50 (Some 1) Completed 5)
            (2, Demo.person "f1")
            [(1, mkMessage 1 2 1 "hi" true 10);
             (2, mkMessage 2 1 1 "hello" true 11)]) nav, db') ∧
    messages db' !! 2 = Some (mkMessage 2 1 1 "hello" true 11) ∧
    messages db' !! 1 = messages Demo.db !! 1.
Proof.
  destruct (conversation_view_spec (Demo.as_user 1 GET []) 1 2 1 Demo.db
              (mkJob "Logo" "a logo" 50 (Some 1) Completed 5) (Demo.person "f1"))
    as (msgs & nav & db' & Hrun & _ & _ & _ & _ & Hmark & Hsent & _);
    [reflexivity..|by left|].
  exists nav, db'. split; [|split].
  - rewrite Hrun. f_equal. f_equal.
    assert (msgs = [(1, mkMessage 1 2 1 "hi" true 10);
                    (2, mkMessage 2 1 1 "hello" true 11)]) as ->; [|done].
    vm_compute in Hrun. by injection Hrun as <- _ _.
  - apply (Hmark 2 (mkMessage 2 1 1 "hello" false 11)); try reflexivity.
    split; [reflexivity|by right].
  - by apply (Hsent 1 (mkMessage 1 2 1 "hi" true 10)).
Defined.

(** What [clear_chat] deletes: the messages of the job whose sender and
    receiver are both among the two users. *)
Lemma in_chat_iff (job_id user other : nat) (m : Message) :
  in_chat job_id user other m
  ↔ in_thread job_id user other m ∨
    (msg_job m = job_id ∧ msg_sender m = msg_receiver m ∧
     (msg_sender m = user ∨ msg_sender m = other)).
Proof.
  unfold in_chat, in_thread. rewrite !elem_of_cons, !elem_of_nil. naive_solver.
Qed.

Lemma clear_chat_deleted (request : Request) (job_id user_id user : nat)
    (db : DB) (job : Job) (other : User) (id : nat) (m : Message) :
  req_user request = Some user →
  req_method request = POST →
  jobs db !! job_id = Some job →
  users db !! user_id = Some other →
  authorized db job_id user job →
  messages db !! id = Some m →
  messages (run (clear_chat request job_id user_id) db).2 !! id = None
  ↔ in_thread job_id user user_id m ∨
    (msg_job m = job_id ∧ msg_sender m = msg_receiver m ∧
     (msg_sender m = user ∨ msg_sender m = user_id)).
Proof.
  intros Hu Hm Hj Ho Hauth Hl. apply authorization_test in Hauth.
  rewrite (clear_chat_run _ _ _ _ _ _ _ Hu Hm Hj Ho), Hauth, <- in_chat_iff.
  simpl. split.
  - intros Hnone. apply dec_stable. intros Hn.
    assert (qs_delete (in_chat job_id user user_id) (messages db) !! id = Some m)
      as Hsome by by apply qs_delete_lookup_Some.
    congruence.
  - intros Hin. by eapply qs_delete_lookup_None.
Qed.

(** C7, on the code.  Client 1 clears the chat of job 1 with freelancer 2:
    the note freelancer 2 left to themself goes too, though it is not a
    message between the two. *)
Theorem clear_chat_deletes_notes :
  let db' := (run (clear_chat (Demo.as_user 1 POST []) 1 2) Demo.db).2 in
  messages Demo.db !! 3 = Some (mkMessage 2 2 1 "note" false 12) ∧
  ¬ in_thread 1 1 2 (mkMessage 2 2 1 "note" false 12) ∧
  messages db' !! 3 = None.
Proof.
  split; [reflexivity|]. split; [|reflexivity].
  unfold in_thread. simpl. naive_solver.
Qed.

(** ** What one request can do to the job and application tables *)

Ltac view_scrutinee x :=
  lazymatch x with
  | _ !! _ => destruct x eqn:?
  | req_user _ => destruct x eqn:?
  | form_value _ _ => destruct x eqn:?
  | decide _ => destruct x
  | negb _ => destruct x eqn:?
  | qs_exists _ _ => destruct x eqn:?
  end.

Ltac view_cases :=
  repeat first
    [ progress simpl
    | match goal with
      | |- context [(match ?x with _ => _ end) ?d] => view_scrutinee x
      | |- context [match ?x with _ => _ end] => view_scrutinee x
      end ].

Lemma serve_jobs (rt : Runtime) (route : Route) (request : Request)
    (db : DB) :
  let db' := (serve rt route request db).2 in
  jobs db' = jobs db ∨
  (∃ j, route = url_post_job ∧ job_status j = Open ∧
        jobs db' = <[next_pk (seq_jobs db) (jobs db) := j]> (jobs db)) ∨
  (∃ app_id a j, route = url_accept_application app_id ∧
        applications db !! app_id = Some a ∧ jobs db !! app_job a = Some j ∧
        jobs db' = <[app_job a := with_job_status InProgress j]> (jobs db)) ∨
  (∃ job_id j, route = url_complete_job job_id ∧ jobs db !! job_id = Some j ∧
        jobs db' = <[job_id := with_job_status Completed j]> (jobs db)).
Proof.
  destruct route; view_unfold; view_cases; eauto 10.
  right; left. eexists (mkJob _ _ _ _ _ _). eauto.
Qed.

Lemma serve_applications (rt : Runtime) (route : Route)
    (request : Request) (db : DB) :
  let db' := (serve rt route request db).2 in
  applications db' = applications db ∨
  (∃ job_id a, route = url_apply_job job_id ∧ app_status a = Pending ∧
        applications db' = <[next_pk (seq_applications db) (applications db) := a]> (applications db)) ∨
  (∃ app_id a j, route = url_accept_application app_id ∧
        applications db !! app_id = Some a ∧ jobs db !! app_job a = Some j ∧
        job_owner j = req_user request ∧
        applications db' = <[app_id := with_app_status Accepted a]> (applications db)) ∨
  (∃ app_id a j, route = url_reject_application app_id ∧
        applications db !! app_id = Some a ∧ jobs db !! app_job a = Some j ∧
        job_owner j = req_user request ∧
        applications db' = <[app_id := with_app_status Rejected a]> (applications db)) ∨
  (∃ job_id j, route = url_complete_job job_id ∧
        jobs db !! job_id = Some j ∧ job_owner j = req_user request ∧
        applications db' =
          qs_update (not_accepted_for job_id) (with_app_status Rejected)
            (applications db)) ∨
  (∃ app_id a, route = url_delete_application app_id ∧
        applications db !! app_id = Some a ∧
        app_applicant_user a = req_user request ∧ app_status a = Rejected ∧
        applications db' = delete app_id (applications db)).
Proof.
  destruct route; view_unfold; view_cases; eauto 10.
  - right; left. eexists _, (mkApplication _ _ _ _ _ _). eauto.
  - right; right; left. eexists _, _, _. split_and!; eauto; congruence.
  - right; right; right; left. eexists _, _, _. split_and!; eauto; congruence.
  - right; right; right; right; left. eexists _, _. split_and!; eauto; congruence.
  - right; right; right; right; right. eexists _, _. split_and!; eauto.
    + apply dec_stable. naive_solver.
    + apply dec_stable. naive_solver.
Qed.

(** One request and one job: the row stays, and it is as before, or set in
    progress by an acceptance, or set completed by a completion. *)
Lemma serve_job_step (rt : Runtime) (route : Route) (request : Request)
    (db : DB) (job_id : nat) (job : Job) :
  jobs db !! job_id = Some job →
  ∃ job', jobs (serve rt route request db).2 !! job_id = Some job' ∧
    (job' = job ∨
     (job' = with_job_status InProgress job ∧ is_accept route) ∨
     (job' = with_job_status Completed job ∧ route = url_complete_job job_id)).
Proof.
  intros Hj.
  destruct (serve_jobs rt route request db)
    as [->|[(j & -> & _ & ->)|[(app_id & a & j & -> & Ha & Hj' & ->)|
        (job_id' & j & -> & Hj' & ->)]]].
  - eauto.
  - exists job. rewrite lookup_insert_ne; [eauto|].
    intros E. rewrite <- E, next_pk_fresh in Hj. done.
  - destruct (decide (app_job a = job_id)) as [E|E].
    + rewrite E in *. rewrite lookup_insert_eq. simplify_eq. simpl. eauto 6.
    + rewrite lookup_insert_ne by done. eauto.
  - destruct (decide (job_id' = job_id)) as [E|E].
    + rewrite E in *. rewrite lookup_insert_eq. simplify_eq. eauto 6.
    + rewrite lookup_insert_ne by done. eauto.
Qed.

(** C1, as the code has it.  Along any sequence of requests a job keeps its
    row and its owner, and once it has left [Open] it is never [Open]
    again; if no request of the sequence is an acceptance, its status
    never moves backward. *)
Theorem job_status_along_requests (rt : Runtime)
    (trace : list (Route * Request)) (db : DB) (job_id : nat) (job : Job) :
  jobs db !! job_id = Some job →
  ∃ job', jobs (serve_all rt trace db) !! job_id = Some job' ∧
    job_owner job' = job_owner job ∧
    (job_status job ≠ Open → job_status job' ≠ Open) ∧
    (Forall (λ rr, ¬ is_accept rr.1) trace →
       (job_rank (job_status job) ≤ job_rank (job_status job'))%nat).
Proof.
  revert db job. induction trace as [|[route request] trace IH]; intros db job Hj.
  - exists job. simpl. split_and!; auto.
  - destruct (serve_job_step rt route request db job_id job Hj)
      as (job1 & Hj1 & Hstep).
    destruct (IH _ _ Hj1) as (job' & Hj' & Hown & Hopen & Hrank).
    exists job'. simpl. split; [exact Hj'|].
    destruct Hstep as [->|[[-> Hacc]|[-> _]]]; simpl in *.
    + split_and!; [done..|]. intros Hall. apply Hrank.
      by eapply Forall_cons_1.
    + split_and!; [done|by auto|]. intros Hall.
      apply Forall_cons_1 in Hall as [Hn _]. done.
    + split_and!; [done|by auto|]. intros Hall.
      apply Forall_cons_1 in Hall as [_ Hall]. specialize (Hrank Hall).
      destruct (job_status job); simpl; lia.
Qed.

Lemma job_status_along_requests_witness :
  ∃ job',
    jobs (serve_all Demo.runtime
            [(url_reject_application 3, Demo.as_user 1 POST []);
             (url_complete_job 2, Demo.as_user 1 POST [])] Demo.db) !! 2
      = Some job' ∧
    job_owner job' = Some 1 ∧
    (InProgress ≠ Open → job_status job' ≠ Open) ∧
    (Forall (λ rr : Route * Request, ¬ is_accept rr.1)
       [(url_reject_application 3, Demo.as_user 1 POST []);
        (url_complete_job 2, Demo.as_user 1 POST [])] →
     (1 ≤ job_rank (job_status job'))%nat).
Proof.
  apply (job_status_along_requests Demo.runtime
           [(url_reject_application 3, Demo.as_user 1 POST []);
            (url_complete_job 2, Demo.as_user 1 POST [])] Demo.db 2
           (mkJob "Site" "a site" 0 (Some 1) InProgress 6)).
  reflexivity.
Defined.

(** C1, as the claim has it, fails: the owner accepts an application of
    the completed job 1, and the job is in progress again. *)
Lemma accept_reopens_completed_job :
  let db' := (serve Demo.runtime (url_accept_application 1)
                (Demo.as_user 1 POST []) Demo.db).2 in
  job_status <$> jobs Demo.db !! 1 = Some Completed ∧
  job_status <$> jobs db' !! 1 = Some InProgress.
Proof. split; reflexivity. Qed.

(** C2, as the code has it.  One request leaves an application as it was,
    or deletes it (its applicant, when it is rejected), or sets it accepted
    ([accept_application] by the job's owner, whatever the status was), or
    sets it rejected ([reject_application] by the job's owner, whatever the
    status was, or the completion of its job when it was not accepted).
    No request sets it back to pending. *)
Theorem application_status_steps (rt : Runtime) (route : Route)
    (request : Request) (db : DB) (app_id : nat) (a : Application) :
  applications db !! app_id = Some a →
  let db' := (serve rt route request db).2 in
  (applications db' !! app_id = None ∧
   route = url_delete_application app_id ∧
   app_applicant_user a = req_user request ∧ app_status a = Rejected) ∨
  (∃ a', applications db' !! app_id = Some a' ∧
     (app_status a' = Pending → app_status a = Pending) ∧
     (a' = a ∨
      (a' = with_app_status Accepted a ∧ route = url_accept_application app_id ∧
       ∃ j, jobs db !! app_job a = Some j ∧ job_owner j = req_user request) ∨
      (a' = with_app_status Rejected a ∧ route = url_reject_application app_id ∧
       ∃ j, jobs db !! app_job a = Some j ∧ job_owner j = req_user request) ∨
      (a' = with_app_status Rejected a ∧ route = url_complete_job (app_job a) ∧
       app_status a ≠ Accepted))).
Proof.
  intros Ha db'. subst db'.
  destruct (serve_applications rt route request db)
    as [->|[(job_id & a0 & -> & _ & ->)|[(app_id' & a0 & j & -> & Ha0 & Hj & Ho & ->)|
        [(app_id' & a0 & j & -> & Ha0 & Hj & Ho & ->)|
         [(job_id & j & -> & Hj & Ho & ->)|(app_id' & a0 & -> & Ha0 & Hu & Hs & ->)]]]]].
  - right. eauto.
  - right. exists a. rewrite lookup_insert_ne; [eauto|].
    intros E. rewrite <- E, next_pk_fresh in Ha. done.
  - right. destruct (decide (app_id' = app_id)) as [E|E].
    + rewrite E in *. rewrite lookup_insert_eq. simplify_eq.
      eexists. split; [done|]. split; [done|]. right; left. eauto.
    + rewrite lookup_insert_ne by done. eauto.
  - right. destruct (decide (app_id' = app_id)) as [E|E].
    + rewrite E in *. rewrite lookup_insert_eq. simplify_eq.
      eexists. split; [done|]. split; [done|]. right; right; left. eauto.
    + rewrite lookup_insert_ne by done. eauto.
  - right. rewrite qs_update_lookup, Ha. simpl.
    destruct (decide (not_accepted_for job_id a)) as [[<- Hn]|Hn].
    + eexists. split; [done|]. split; [done|]. right; right; right. eauto.
    + eauto.
  - destruct (decide (app_id' = app_id)) as [E|E].
    + rewrite E in *. rewrite lookup_delete_eq. simplify_eq. left. eauto.
    + rewrite lookup_delete_ne by done. right. eauto.
Qed.

Lemma application_status_steps_witness :
  ∃ a',
    applications (serve Demo.runtime (url_complete_job 2) (Demo.as_user 1 POST [])
                    Demo.db).2 !! 3 = Some a' ∧
    a' = mkApplication 2 (Some 2) "f1" "mine" Rejected 9.
Proof.
  destruct (application_status_steps Demo.runtime (url_complete_job 2)
              (Demo.as_user 1 POST []) Demo.db 3
              (mkApplication 2 (Some 2) "f1" "mine" Pending 9) eq_refl)
    as [[Hgone _]|(a' & Ha' & _ & _)].
  - vm_compute in Hgone. discriminate.
  - exists a'. split; [exact Ha'|].
    vm_compute in Ha'. by injection Ha' as <-.
Defined.

(** C2, as the claim has it, fails: the owner rejects an accepted
    application, and accepts a rejected one. *)
Lemma accepted_and_rejected_can_change :
  app_status <$> applications Demo.db !! 4 = Some Accepted ∧
  app_status <$> applications
    (run (reject_application (Demo.as_user 1 POST []) 4) Demo.db).2 !! 4
    = Some Rejected ∧
  app_status <$> applications Demo.db !! 2 = Some Rejected ∧
  app_status <$> applications
    (run (accept_application (Demo.as_user 1 POST []) 2) Demo.db).2 !! 2
    = Some Accepted.
Proof. repeat split; reflexivity. Qed.

(** ** The list of conversations *)

Lemma qs_count_size {A} (P : A → Prop) `{∀ a, Decision (P a)} (t : gmap nat A) :
  qs_count P t = size (filter (λ r, P r.2) t).
Proof.
  unfold qs_count. rewrite map_filter_alt, map_size_list_to_map; [done|].
  eapply sublist_NoDup; [apply (NoDup_fst_map_to_list t)|].
  apply fmap_sublist, sublist_filter.
Qed.

Section Conversations.
Context (user : nat) (db : DB).

Local Abbreviation key := (conversation_key user).
Local Abbreviation entry := (conversation_entry user db).
Local Abbreviation add := (add_conversation user db).

Lemma add_conversation_eq (acc : list ((nat * nat) * Conversation))
    (msg : nat * Message) :
  add acc msg =
    if decide (key msg ∈ acc.*1) then acc else (acc ++ [entry msg])%list.
Proof. done. Qed.

Lemma add_conversation_keys (acc : list ((nat * nat) * Conversation))
    (msg : nat * Message) (k : nat * nat) :
  k ∈ (add acc msg).*1 ↔ k ∈ acc.*1 ∨ k = key msg.
Proof.
  rewrite add_conversation_eq. case_decide as Hin.
  - naive_solver.
  - rewrite fmap_app, elem_of_app. simpl. rewrite list_elem_of_singleton. done.
Qed.

Lemma conversations_keys (msgs : list (nat * Message))
    (acc : list ((nat * nat) * Conversation)) (k : nat * nat) :
  k ∈ (foldl add acc msgs).*1 ↔ k ∈ acc.*1 ∨ k ∈ (key <$> msgs).
Proof.
  revert acc. induction msgs as [|msg msgs IH]; intros acc; simpl.
  - rewrite elem_of_nil. naive_solver.
  - rewrite IH, add_conversation_keys, elem_of_cons. naive_solver.
Qed.

Lemma conversations_NoDup (msgs : list (nat * Message))
    (acc : list ((nat * nat) * Conversation)) :
  NoDup acc.*1 → NoDup (foldl add acc msgs).*1.
Proof.
  revert acc. induction msgs as [|msg msgs IH]; intros acc Hnd; simpl; [done|].
  apply IH. rewrite add_conversation_eq. case_decide as Hin; [done|].
  rewrite fmap_app. apply NoDup_app. split; [done|]. split.
  - intros k Hk. simpl. rewrite list_elem_of_singleton. by intros ->.
  - simpl. apply NoDup_singleton.
Qed.

(** Every entry comes from the first message of its key. *)
Lemma conversations_entries (msgs : list (nat * Message))
    (acc : list ((nat * nat) * Conversation)) (e : (nat * nat) * Conversation) :
  e ∈ foldl add acc msgs →
  e ∈ acc ∨
  ∃ before msg after, msgs = (before ++ msg :: after)%list ∧ e = entry msg ∧
    (key msg ∉ (key <$> before)) ∧ (key msg ∉ acc.*1).
Proof.
  revert acc. induction msgs as [|msg msgs IH]; intros acc; simpl; [by left|].
  intros He. destruct (IH _ He) as [Hin|(before & msg' & after & -> & -> & Hb & Ha)].
  - rewrite add_conversation_eq in Hin. case_decide as Hk; [by left|].
    apply elem_of_app in Hin as [Hin|Hin]; [by left|].
    apply list_elem_of_singleton in Hin as ->. right.
    exists [], msg, msgs. split_and!; [done..| |done].
    simpl. apply not_elem_of_nil.
  - right. exists (msg :: before), msg', after.
    rewrite add_conversation_keys in Ha. split_and!; [done..| |].
    + simpl. rewrite elem_of_cons. intros [E|Hin]; [apply Ha; by right|done].
    + intros Hin. apply Ha. by left.
Qed.

Lemma conversations_keyed (msgs : list (nat * Message)) :
  conv_key <$> (foldl add [] msgs).*2 = (foldl add [] msgs).*1.
Proof.
  assert (Forall (λ e, conv_key e.2 = e.1) (foldl add [] msgs)) as Hall.
  { apply Forall_forall. intros e He.
    apply conversations_entries in He as [He|(? & msg & ? & _ & -> & _)]; [|done].
    by apply elem_of_nil in He. }
  induction Hall as [|e l He _ IH]; [done|]. csimpl. by rewrite He, IH.
Qed.

End Conversations.

Lemma unread_from_in_pair (user job_id other : nat) (m : Message) :
  unread_from job_id user other m
  ↔ in_pair user job_id other m ∧ msg_receiver m = user ∧ msg_read m = false.
Proof.
  unfold unread_from, in_pair, involves, other_user_of.
  case_decide; naive_solver.
Qed.

(** The conversations, in terms of the grouping the loop itself uses. *)
Lemma my_conversations_grouped (request : Request) (user : nat) (db : DB) :
  req_user request = Some user →
  ∃ convs nav,
    run (my_conversations request) db =
      (Render "jobs/my_conversations.html" (CtxConversations convs) nav, db) ∧
    NoDup (conv_key <$> convs) ∧
    (∀ job_id other, (other, job_id) ∈ (conv_key <$> convs)
       ↔ ∃ id m, messages db !! id = Some m ∧ in_pair user job_id other m) ∧
    (∀ c, c ∈ convs →
       unread_count c =
         size (filter (λ r, in_pair user (conv_job c) (conv_other_user c) r.2 ∧
                            msg_receiver r.2 = user ∧ msg_read r.2 = false)
                 (messages db))) ∧
    (∀ c, c ∈ convs →
       (∃ id m, messages db !! id = Some m ∧
          in_pair user (conv_job c) (conv_other_user c) m ∧
          msg_timestamp m = last_message_time c) ∧
       (∀ id m, messages db !! id = Some m →
          in_pair user (conv_job c) (conv_other_user c) m →
          (msg_timestamp m ≤ last_message_time c)%Z)) ∧
    StronglySorted (λ c1 c2, (last_message_time c2 ≤ last_message_time c1)%Z)
      convs.
Proof.
  intros Hu. exists (conversations_of user db). eexists. split.
  { view_unfold. by rewrite Hu. }
  unfold conversations_of.
  set (msgs := sort_by (desc (msg_timestamp ∘ snd))
                 (filter (λ r, involves user r.2) (map_to_list (messages db)))).
  set (table := foldl (add_conversation user db) [] msgs).
  assert (∀ id m, (id, m) ∈ msgs ↔ messages db !! id = Some m ∧ involves user m)
    as Hmsgs.
  { intros id m. unfold msgs.
    rewrite elem_of_sort_by, list_elem_of_filter, elem_of_map_to_list.
    naive_solver. }
  assert (StronglySorted (λ x y, (msg_timestamp y.2 ≤ msg_timestamp x.2)%Z) msgs)
    as Hsorted by apply (sort_by_desc (msg_timestamp ∘ snd)).
  assert (∀ c, c ∈ sort_by (desc last_message_time) table.*2 →
            ∃ before msg after, msgs = (before ++ msg :: after)%list ∧
              c = (conversation_entry user db msg).2 ∧
              conversation_key user msg ∉ (conversation_key user <$> before))
    as Horigin.
  { intros c Hc. rewrite elem_of_sort_by in Hc.
    apply list_elem_of_fmap in Hc as ([k c'] & -> & He).
    apply conversations_entries in He
      as [He|(before & msg & after & ? & E & ? & _)].
    - by apply elem_of_nil in He.
    - exists before, msg, after. by rewrite <- E. }
  split; [|split; [|split; [|split]]].
  - rewrite sort_by_perm. unfold table. rewrite conversations_keyed.
    apply conversations_NoDup. constructor.
  - intros job_id other. rewrite sort_by_perm. unfold table.
    rewrite conversations_keyed, conversations_keys, elem_of_nil, list_elem_of_fmap.
    split.
    + intros [[]|([id m] & E & Hin)]. apply Hmsgs in Hin as [Hl Hi].
      injection E as E1 E2. exists id, m. by repeat split.
    + intros (id & m & Hl & Hi & Hj & Ho). right. exists (id, m).
      split; [|by apply Hmsgs]. unfold conversation_key. simpl. by rewrite Hj, Ho.
  - intros c Hc. apply Horigin in Hc as (_ & msg & _ & _ & -> & _). simpl.
    rewrite qs_count_size. f_equal. apply map_filter_ext.
    intros id m _. simpl. apply unread_from_in_pair.
  - intros c Hc. apply Horigin in Hc as (before & [id m] & after & E & -> & Hfirst).
    simpl. assert ((id, m) ∈ msgs) as Hin.
    { rewrite E. apply elem_of_app. right. by left. }
    apply Hmsgs in Hin as [Hl Hi]. split.
    + exists id, m. by repeat split.
    + intros id' m' Hl' (Hi' & Hj' & Ho').
      assert ((id', m') ∈ msgs) as Hin' by by apply Hmsgs.
      rewrite E in Hin', Hsorted.
      apply elem_of_app in Hin' as [Hin'|Hin'].
      * exfalso. apply Hfirst. apply list_elem_of_fmap. exists (id', m').
        split; [|done]. unfold conversation_key. simpl. by rewrite Hj', Ho'.
      * apply elem_of_cons in Hin' as [[= -> ->]|Hin']; [lia|].
        apply StronglySorted_app_1_r, StronglySorted_cons in Hsorted as [Hall _].
        rewrite Forall_forall in Hall. by apply (Hall (id', m')).
  - apply sort_by_desc.
Qed.

Lemma in_pair_iff (user job_id other : nat) (m : Message) :
  in_pair user job_id other m
  ↔ msg_job m = job_id ∧
    ((msg_sender m = user ∧ msg_receiver m = other) ∨
     (msg_sender m = other ∧ msg_receiver m = user)).
Proof.
  unfold in_pair, involves, other_user_of. case_decide; naive_solver.
Qed.

(** C8. [my_conversations] gives one entry for each pair (job,
    counterpart) such that some message of the job goes from the user to
    the counterpart or from the counterpart to the user, and no other
    entry; an entry carries the number of unread messages of its pair
    addressed to the user and the timestamp of the latest message of its
    pair; the entries come latest first. *)
Theorem my_conversations_spec (request : Request) (user : nat) (db : DB) :
  req_user request = Some user →
  ∃ convs nav,
    run (my_conversations request) db =
      (Render "jobs/my_conversations.html" (CtxConversations convs) nav, db) ∧
    NoDup ((λ c, (conv_job c, conv_other_user c)) <$> convs) ∧
    (∀ job_id other,
       (∃ c, c ∈ convs ∧ conv_job c = job_id ∧ conv_other_user c = other)
       ↔ ∃ id m, messages db !! id = Some m ∧ msg_job m = job_id ∧
           ((msg_sender m = user ∧ msg_receiver m = other) ∨
            (msg_sender m = other ∧ msg_receiver m = user))) ∧
    (∀ c, c ∈ convs →
       unread_count c =
         size (filter (λ r : nat * Message,
                         msg_job r.2 = conv_job c ∧
                         ((msg_sender r.2 = user ∧
                           msg_receiver r.2 = conv_other_user c) ∨
                          (msg_sender r.2 = conv_other_user c ∧
                           msg_receiver r.2 = user)) ∧
                         msg_receiver r.2 = user ∧ msg_read r.2 = false)
                 (messages db))) ∧
    (∀ c, c ∈ convs →
       (∃ id m, messages db !! id = Some m ∧ msg_job m = conv_job c ∧
          ((msg_sender m = user ∧ msg_receiver m = conv_other_user c) ∨
           (msg_sender m = conv_other_user c ∧ msg_receiver m = user)) ∧
          msg_timestamp m = last_message_time c) ∧
       (∀ id m, messages db !! id = Some m → msg_job m = conv_job c →
          ((msg_sender m = user ∧ msg_receiver m = conv_other_user c) ∨
           (msg_sender m = conv_other_user c ∧ msg_receiver m = user)) →
          (msg_timestamp m ≤ last_message_time c)%Z)) ∧
    StronglySorted (λ c1 c2, (last_message_time c2 ≤ last_message_time c1)%Z)
      convs.
Proof.
  intros Hu.
  destruct (my_conversations_grouped request user db Hu)
    as (convs & nav & Hrun & Hnd & Hkeys & Hcount & Hlast & Hsorted).
  exists convs, nav. split; [exact Hrun|]. split_and!.
  - apply (NoDup_fmap_1 (λ p : nat * nat, (p.2, p.1))).
    rewrite <- list_fmap_compose. exact Hnd.
  - intros job_id other. split.
    + intros (c & Hc & <- & <-).
      assert ((conv_other_user c, conv_job c) ∈ (conv_key <$> convs)) as Hin
        by (apply list_elem_of_fmap; by exists c).
      apply Hkeys in Hin as (id & m & Hl & Hp). apply in_pair_iff in Hp.
      exists id, m. by split.
    + intros (id & m & Hl & Hp).
      assert ((other, job_id) ∈ (conv_key <$> convs)) as Hin.
      { apply Hkeys. exists id, m. split; [done|]. by apply in_pair_iff. }
      apply list_elem_of_fmap in Hin as (c & [= -> ->] & Hc). by exists c.
  - intros c Hc. rewrite (Hcount c Hc). f_equal. apply map_filter_ext.
    intros id m _. simpl. rewrite in_pair_iff. naive_solver.
  - intros c Hc. destruct (Hlast c Hc) as [(id & m & Hl & Hp & Ht) Hmax]. split.
    + apply in_pair_iff in Hp as [? ?]. exists id, m. by split_and!.
    + intros id' m' Hl' Hj' Hd'. apply (Hmax id' m' Hl'). by apply in_pair_iff.
  - exact Hsorted.
Qed.

Lemma my_conversations_spec_witness :
  ∃ nav,
    run (my_conversations (Demo.as_user 1 GET [])) Demo.db =
      (Render "jobs/my_conversations.html"
         (CtxConversations [mkConversation 2 3 14 1; mkConversation 1 1 13 1;
                            mkConversation 1 2 11 1]) nav, Demo.db).
Proof.
  destruct (my_conversations_spec (Demo.as_user 1 GET []) 1 Demo.db eq_refl)
    as (convs & nav & Hrun & _).
  exists nav. rewrite Hrun. vm_compute in Hrun. by injection Hrun as <- _.
Defined.

(** * Further properties of the views *)

(** ** Refusals, page views, anonymous visitors, methods *)

(** X1. A view that turns a request down (forbidden, not found, method not
    allowed, server error, or the redirect to the login page) has written
    nothing. *)
Theorem refusal_leaves_database (rt : Runtime) (route : Route)
    (request : Request) (db : DB) :
  is_refusal (serve rt route request db).1 →
  (serve rt route request db).2 = db.
Proof.
  destruct route; view_unfold; view_cases; try done.
Qed.

Lemma refusal_leaves_database_witness :
  (serve Demo.runtime (url_complete_job 2) (Demo.as_user 4 POST []) Demo.db).2
    = Demo.db.
Proof.
  apply (refusal_leaves_database Demo.runtime (url_complete_job 2)
           (Demo.as_user 4 POST []) Demo.db).
  exact I.
Defined.

(** X2. The pages that only show something write nothing, whatever the
    request; and a request that is not a POST writes nothing anywhere,
    except that opening a thread marks the messages received in it read. *)
Theorem page_views_write_nothing (rt : Runtime) (route : Route)
    (request : Request) (db : DB) :
  (shows_only route → (serve rt route request db).2 = db) ∧
  (req_method request ≠ POST →
     (serve rt route request db).2 = db ∨
     ∃ job_id user_id user, route = url_conversation job_id user_id ∧
       req_user request = Some user ∧
       (serve rt route request db).2 = mark_read job_id user user_id db).
Proof.
  split.
  - destruct route; simpl; try done; intros _; view_unfold; view_cases; done.
  - intros Hm. destruct route; view_unfold; view_cases; auto;
      try (exfalso; set_solver).
    all: right; by eexists _, _, _.
Qed.

Lemma page_views_write_nothing_witness :
  (serve Demo.runtime (url_job_applications 2) (Demo.as_user 1 POST []) Demo.db).2
    = Demo.db ∧
  ((serve Demo.runtime url_post_job (Demo.as_user 1 GET [("title", "x")]) Demo.db).2
     = Demo.db ∨
   ∃ job_id user_id user, url_post_job = url_conversation job_id user_id ∧
     req_user (Demo.as_user 1 GET [("title", "x")]) = Some user ∧
     (serve Demo.runtime url_post_job (Demo.as_user 1 GET [("title", "x")]) Demo.db).2
       = mark_read job_id user user_id Demo.db).
Proof.
  split.
  - apply (page_views_write_nothing Demo.runtime (url_job_applications 2)
             (Demo.as_user 1 POST []) Demo.db). exact I.
  - apply (page_views_write_nothing Demo.runtime url_post_job
             (Demo.as_user 1 GET [("title", "x")]) Demo.db). discriminate.
Defined.

(** X3. An anonymous visitor is sent to the login page by every view
    behind [login_required], and home by [available_jobs]; nothing is
    written.  The only thing an anonymous request can write is a new
    account, through the sign-up pages. *)
Theorem anonymous_requests (rt : Runtime) (route : Route)
    (request : Request) (db : DB) :
  req_user request = None →
  (needs_login route → serve rt route request db = (Redirect "login" [], db)) ∧
  (route = url_available_jobs →
     serve rt route request db = (Redirect "home" [], db)) ∧
  jobs (serve rt route request db).2 = jobs db ∧
  applications (serve rt route request db).2 = applications db ∧
  messages (serve rt route request db).2 = messages db.
Proof.
  intros Hu. split_and!.
  - destruct route; simpl; try done; intros _; view_unfold; by rewrite Hu.
  - intros ->. view_unfold. by rewrite Hu.
  - destruct route; view_unfold; rewrite ?Hu; view_cases; done.
  - destruct route; view_unfold; rewrite ?Hu; view_cases; done.
  - destruct route; view_unfold; rewrite ?Hu; view_cases; done.
Qed.

Lemma anonymous_requests_witness :
  serve Demo.runtime (url_accept_application 3) (mkRequest None POST ∅ 20) Demo.db
    = (Redirect "login" [], Demo.db).
Proof.
  refine (proj1 (anonymous_requests Demo.runtime (url_accept_application 3)
                   (mkRequest None POST ∅ 20) Demo.db _) _);
    [reflexivity|exact I].
Defined.

(** X4. The five views that change or delete on behalf of a logged-in user
    answer any method but POST with "method not allowed" and write
    nothing. *)
Theorem only_POST_changes (rt : Runtime) (route : Route)
    (request : Request) (db : DB) (user : nat) :
  needs_POST route →
  req_user request = Some user →
  req_method request ≠ POST →
  serve rt route request db = (HttpResponseNotAllowed, db).
Proof.
  intros Hr Hu Hm. destruct route; simpl in Hr; try done;
    view_unfold; rewrite Hu; simpl;
    (case_decide as Hin; [exfalso; set_solver|done]).
Qed.

Lemma only_POST_changes_witness :
  serve Demo.runtime (url_delete_application 2) (Demo.as_user 3 GET []) Demo.db
    = (HttpResponseNotAllowed, Demo.db).
Proof.
  apply (only_POST_changes Demo.runtime (url_delete_application 2)
           (Demo.as_user 3 GET []) Demo.db 3); [exact I|reflexivity|discriminate].
Defined.

(** ** Posting a job and applying *)

Lemma form_value_Some (request : Request) (name s : string) :
  form_value request name = Some s
  ↔ req_POST request !! name = Some s ∧ s ≠ EmptyString.
Proof.
  unfold form_value, POST_get, truthy.
  destruct (req_POST request !! name) as [v|]; [|naive_solver].
  case_bool_decide; naive_solver.
Qed.

(** X5. [post_job] writes exactly when a client posts a non-empty title,
    description and budget whose value fits the integer column, the value
    being the budget read as an integer, or 0 when it does not read as
    one: then one job is found afterwards under a key that was not in use
    and was never given before, open, owned by the client, and every other
    row is as it was.  A value that does not fit is a server error, and
    nothing is written.  In every other case the database is the one
    before. *)
Theorem post_job_spec (int : string → option Z) (request : Request) (db : DB) :
  let posted user title description budget :=
    ∃ profile,
      req_user request = Some user ∧
      profiles db !! user = Some profile ∧ role profile = Client ∧
      req_method request = POST ∧
      req_POST request !! "title" = Some title ∧ title ≠ EmptyString ∧
      req_POST request !! "description" = Some description ∧
      description ≠ EmptyString ∧
      req_POST request !! "budget" = Some budget ∧ budget ≠ EmptyString in
  let value budget := match int budget with Some b => b | None => 0%Z end in
  (∀ user title description budget, posted user title description budget →
     (- 2 ^ 63 ≤ value budget < 2 ^ 63)%Z →
     ∃ job_id db',
       run (post_job int request) db = (Redirect "home" [], db') ∧
       jobs db !! job_id = None ∧
       (seq_jobs db < job_id)%nat ∧
       jobs db' !! job_id =
         Some (mkJob title description (value budget) (Some user) Open
                     (req_now request)) ∧
       (∀ k, k ≠ job_id → jobs db' !! k = jobs db !! k) ∧
       users db' = users db ∧ profiles db' = profiles db ∧
       applications db' = applications db ∧ messages db' = messages db) ∧
  (∀ user title description budget, posted user title description budget →
     ¬ (- 2 ^ 63 ≤ value budget < 2 ^ 63)%Z →
     run (post_job int request) db = (ServerError, db)) ∧
  ((run (post_job int request) db).2 ≠ db →
     ∃ user title description budget, posted user title description budget ∧
       (- 2 ^ 63 ≤ value budget < 2 ^ 63)%Z).
Proof.
  intros posted value. subst posted value.
  assert (∀ user title description budget,
    (∃ profile,
      req_user request = Some user ∧
      profiles db !! user = Some profile ∧ role profile = Client ∧
      req_method request = POST ∧
      req_POST request !! "title" = Some title ∧ title ≠ EmptyString ∧
      req_POST request !! "description" = Some description ∧
      description ≠ EmptyString ∧
      req_POST request !! "budget" = Some budget ∧ budget ≠ EmptyString) →
    run (post_job int request) db =
      if decide (fits_integer_column (default 0%Z (int budget))) then
        (Redirect "home" [],
         set_seq_jobs (next_pk (seq_jobs db) (jobs db))
           (set_jobs (insert (next_pk (seq_jobs db) (jobs db))
              (mkJob title description (default 0%Z (int budget)) (Some user)
                     Open (req_now request))) db))
      else (ServerError, db)) as Hrun.
  { intros user title description budget
      (profile & Hu & Hp & Hr & Hm & Ht & Hte & Hd & Hde & Hb & Hbe).
    assert (form_value request "title" = Some title) as Ft
      by by apply form_value_Some.
    assert (form_value request "description" = Some description) as Fd
      by by apply form_value_Some.
    assert (form_value request "budget" = Some budget) as Fb
      by by apply form_value_Some.
    view_unfold. rewrite Hu. simpl. rewrite Hp. simpl.
    case_decide; [|done]. case_decide; [|done]. rewrite Ft, Fd, Fb.
    by destruct (decide (fits_integer_column (default 0%Z (int budget)))). }
  split_and!.
  - intros user title description budget Hposted Hfits.
    rewrite (Hrun _ _ _ _ Hposted).
    assert (default 0%Z (int budget)
            = match int budget with Some b => b | None => 0%Z end) as E
      by by destruct (int budget).
    rewrite decide_True by (unfold fits_integer_column; by rewrite E).
    eexists _, _. split; [done|]. simpl. rewrite E. split_and!; try done.
    + apply next_pk_fresh.
    + apply next_pk_above.
    + apply lookup_insert_eq.
    + intros k Hk. by apply lookup_insert_ne.
  - intros user title description budget Hposted Hfits.
    rewrite (Hrun _ _ _ _ Hposted).
    assert (default 0%Z (int budget)
            = match int budget with Some b => b | None => 0%Z end) as E
      by by destruct (int budget).
    by rewrite decide_False by (unfold fits_integer_column; by rewrite E).
  - view_unfold. view_cases; try done. intros _.
    repeat match goal with H : form_value _ _ = Some _ |- _ =>
      apply form_value_Some in H as [? ?] end.
    match goal with H : fits_integer_column _ |- _ => rename H into Hfits end.
    eexists _, _, _, _. split; [eexists; split_and!; eauto|].
    unfold fits_integer_column in Hfits.
    match goal with |- context [int ?b] => by destruct (int b) end.
Qed.

Lemma post_job_spec_witness :
  ∃ job_id db',
    run (post_job Demo.no_int
           (Demo.as_user 1 POST [("title", "T"); ("description", "D");
                                 ("budget", "abc")])) Demo.db =
      (Redirect "home" [], db') ∧
    jobs db' !! job_id = Some (mkJob "T" "D" 0 (Some 1) Open 20).
Proof.
  destruct (proj1 (post_job_spec Demo.no_int
    (Demo.as_user 1 POST [("title", "T"); ("description", "D"); ("budget", "abc")])
    Demo.db) 1 "T" "D" "abc")
    as (job_id & db' & Hrun & _ & _ & Hnew & _).
  - exists (mkProfile Client 1). by split_and!.
  - simpl. lia.
  - exists job_id, db'. by split.
Defined.

(** X6. [apply_job] writes exactly when a freelancer posts a non-empty name
    and proposal for a job that exists; a job that does not exist is "not
    found", anyone but a freelancer is sent home, and with an empty field
    the form is shown again. *)
Theorem apply_job_cases (request : Request) (job_id user : nat) (db : DB) :
  req_user request = Some user →
  let resp := (run (apply_job request job_id) db).1 in
  let db' := (run (apply_job request job_id) db).2 in
  ((∀ p, profiles db !! user = Some p → role p ≠ Freelancer) →
     resp = Redirect "home" [] ∧ db' = db) ∧
  ((∃ p, profiles db !! user = Some p ∧ role p = Freelancer) →
     jobs db !! job_id = None → resp = Http404 ∧ db' = db) ∧
  (∀ p job, profiles db !! user = Some p → role p = Freelancer →
     jobs db !! job_id = Some job →
     (req_method request ≠ POST ∨
      form_value request "applicant_name" = None ∨
      form_value request "proposal" = None) →
     db' = db ∧
     ∃ nav, resp = Render "jobs/apply_job.html" (CtxJob (job_id, job)) nav).
Proof.
  intros Hu resp db'. subst resp db'. split_and!.
  - intros Hp. view_unfold. rewrite Hu. simpl.
    destruct (profiles db !! user) as [p|] eqn:E; [|done].
    specialize (Hp p eq_refl). by case_decide.
  - intros (p & Hp & Hr) Hj. view_unfold. rewrite Hu. simpl. rewrite Hp. simpl.
    case_decide; [|done]. by rewrite Hj.
  - intros p job Hp Hr Hj Hcase. view_unfold. rewrite Hu. simpl. rewrite Hp.
    simpl. case_decide; [|done]. rewrite Hj.
    destruct (decide (req_method request = POST)) as [Hm|Hm];
      [|split; [done|by eexists]].
    destruct Hcase as [?|[->| ->]]; [done| |];
      repeat case_match; simplify_eq; (split; [done|by eexists]).
Qed.

Lemma apply_job_cases_witness :
  (run (apply_job (Demo.as_user 3 POST [("applicant_name", "f2")]) 9) Demo.db).1
    = Http404 ∧
  (run (apply_job (Demo.as_user 1 POST [("applicant_name", "c1")]) 1) Demo.db).1
    = Redirect "home" [].
Proof.
  split.
  - refine (proj1 (proj1 (proj2 (apply_job_cases
      (Demo.as_user 3 POST [("applicant_name", "f2")]) 9 3 Demo.db eq_refl)) _ _)).
    + exists (mkProfile Freelancer 3). by split.
    + reflexivity.
  - refine (proj1 (proj1 (apply_job_cases
      (Demo.as_user 1 POST [("applicant_name", "c1")]) 1 1 Demo.db eq_refl) _)).
    intros p Hp. vm_compute in Hp. by injection Hp as <-.
Defined.

(** ** The listings *)

Lemma elem_of_listing {A} (P : nat * A → Prop) `{∀ r, Decision (P r)}
    (le : nat * A → nat * A → bool) (t : gmap nat A) (id : nat) (a : A) :
  (id, a) ∈ sort_by le (filter P (map_to_list t)) ↔ t !! id = Some a ∧ P (id, a).
Proof.
  rewrite elem_of_sort_by, list_elem_of_filter, elem_of_map_to_list. naive_solver.
Qed.

Lemma listing_NoDup {A} (P : nat * A → Prop) `{∀ r, Decision (P r)}
    (t : gmap nat A) :
  NoDup (filter P (map_to_list t)).*1.
Proof.
  eapply sublist_NoDup; [apply (NoDup_fst_map_to_list t)|].
  apply fmap_sublist, sublist_filter.
Qed.

Lemma require_role_run (r : Role) (user : nat) (db : DB) :
  require_role r user db =
    match profiles db !! user with
    | Some p => if decide (role p = r) then (inr tt, db)
                else (inl (Redirect "home" []), db)
    | None => (inl (Redirect "home" []), db)
    end.
Proof.
  unfold require_role. view_unfold.
  destruct (profiles db !! user); [|done]. by case_decide.
Qed.

(** X7. [available_jobs] shows a freelancer exactly the open jobs, each
    once, newest first; any other logged-in user is sent home. *)
Theorem available_jobs_spec (request : Request) (user : nat) (db : DB) :
  req_user request = Some user →
  (∀ p, profiles db !! user = Some p → role p = Freelancer →
     ∃ js nav,
       run (available_jobs request) db =
         (Render "jobs/available_jobs.html" (CtxJobs js) nav, db) ∧
       (∀ id j, (id, j) ∈ js ↔ jobs db !! id = Some j ∧ job_status j = Open) ∧
       NoDup js.*1 ∧
       StronglySorted (λ x y, (job_created_at y.2 ≤ job_created_at x.2)%Z) js) ∧
  ((∀ p, profiles db !! user = Some p → role p ≠ Freelancer) →
     run (available_jobs request) db = (Redirect "home" [], db)).
Proof.
  intros Hu. unfold available_jobs, run. rewrite Hu.
  unfold mbind, View_bind. rewrite require_role_run. split.
  - intros p Hp Hr. rewrite Hp, decide_True by done. view_unfold.
    eexists _, _. split; [done|]. split_and!.
    + intros id j. apply elem_of_listing.
    + rewrite sort_by_perm. apply listing_NoDup.
    + apply (sort_by_desc (job_created_at ∘ snd)).
  - intros Hp. destruct (profiles db !! user) as [p|]; [|done].
    by rewrite decide_False by by apply Hp.
Qed.

Lemma available_jobs_spec_witness :
  run (available_jobs (Demo.as_user 1 GET [])) Demo.db
    = (Redirect "home" [], Demo.db).
Proof.
  refine (proj2 (available_jobs_spec (Demo.as_user 1 GET []) 1 Demo.db eq_refl) _).
  intros p Hp. vm_compute in Hp. by injection Hp as <-.
Defined.

(** X8. [my_jobs] shows a client exactly the jobs they own that are not
    completed, each with the number of its applications that are not
    rejected, newest first. *)
Theorem my_jobs_spec (request : Request) (user : nat) (db : DB) (p : Profile) :
  req_user request = Some user →
  profiles db !! user = Some p →
  role p = Client →
  ∃ js nav,
    run (my_jobs request) db = (Render "jobs/my_jobs.html" (CtxMyJobs js) nav, db) ∧
    (∀ id j n, (id, j, n) ∈ js ↔
       jobs db !! id = Some j ∧ job_owner j = Some user ∧
       job_status j ≠ Completed ∧
       n = size (filter (λ r, app_job r.2 = id ∧ app_status r.2 ≠ Rejected)
                   (applications db))) ∧
    NoDup (fst ∘ fst <$> js) ∧
    StronglySorted
      (λ x y, (job_created_at y.1.2 ≤ job_created_at x.1.2)%Z) js.
Proof.
  intros Hu Hp Hr. unfold my_jobs, run, login_required. rewrite Hu.
  unfold mbind, View_bind, mret, View_ret. rewrite require_role_run, Hp.
  rewrite decide_True by done. view_unfold.
  eexists _, _. split; [done|]. split_and!.
  - intros id j n. rewrite elem_of_sort_by, list_elem_of_fmap. split.
    + intros ([id' j'] & [= -> -> ->] & Hin).
      apply list_elem_of_filter in Hin as [[Ho Hs] Hin].
      apply elem_of_map_to_list in Hin. simpl in *.
      by rewrite qs_count_size.
    + intros (Hj & Ho & Hs & ->). exists (id, j). rewrite qs_count_size.
      split; [done|]. apply list_elem_of_filter. split; [done|].
      by apply elem_of_map_to_list.
  - rewrite sort_by_perm, <- list_fmap_compose.
    eapply sublist_NoDup; [apply (NoDup_fst_map_to_list (jobs db))|].
    apply fmap_sublist, sublist_filter.
  - apply (sort_by_desc (job_created_at ∘ snd ∘ fst)).
Qed.

Lemma my_jobs_spec_witness :
  ∃ nav,
    run (my_jobs (Demo.as_user 1 GET [])) Demo.db =
      (Render "jobs/my_jobs.html"
         (CtxMyJobs [(2, mkJob "Site" "a site" 0 (Some 1) InProgress 6, 2)]) nav,
       Demo.db).
Proof.
  destruct (my_jobs_spec (Demo.as_user 1 GET []) 1 Demo.db (mkProfile Client 1))
    as (js & nav & Hrun & _); [reflexivity..|].
  exists nav. rewrite Hrun. vm_compute in Hrun. by injection Hrun as <- _.
Defined.

Lemma job_applications_run (request : Request) (job_id user : nat) (db : DB)
    (job : Job) :
  req_user request = Some user →
  jobs db !! job_id = Some job →
  run (job_applications request job_id) db =
    if decide (job_owner job = Some user) then
      (Render "jobs/job_applications.html"
         (CtxJobApplications (job_id, job)
            (filter (λ r, app_job r.2 = job_id ∧ app_status r.2 ≠ Rejected)
               (map_to_list (applications db))))
         (navbar_links_for (Some user) db), db)
    else (Redirect "home" [], db).
Proof.
  intros Hu Hj. view_unfold. rewrite Hu. simpl. rewrite Hj. by case_decide.
Qed.

Lemma my_applications_run (request : Request) (user : nat) (db : DB)
    (p : Profile) :
  req_user request = Some user →
  profiles db !! user = Some p →
  role p = Freelancer →
  run (my_applications request) db =
    (Render "jobs/my_applications.html"
       (CtxApplications
          (filter (λ r, app_applicant_user r.2 = Some user ∧
                        job_not_completed db r.2)
             (map_to_list (applications db))))
       (navbar_links_for (Some user) db), db).
Proof.
  intros Hu Hp Hr. unfold my_applications, run, login_required. rewrite Hu.
  unfold mbind, View_bind, mret, View_ret. rewrite require_role_run, Hp.
  rewrite decide_True by done. view_unfold. simpl. by rewrite Hu.
Qed.

(** X9. [job_applications] shows the owner of a job exactly its
    applications that are not rejected, each once; anyone else is sent
    home (not refused). *)
Theorem job_applications_spec (request : Request) (job_id user : nat) (db : DB)
    (job : Job) :
  req_user request = Some user →
  jobs db !! job_id = Some job →
  (job_owner job = Some user →
     ∃ apps nav,
       run (job_applications request job_id) db =
         (Render "jobs/job_applications.html"
            (CtxJobApplications (job_id, job) apps) nav, db) ∧
       (∀ id a, (id, a) ∈ apps ↔
          applications db !! id = Some a ∧ app_job a = job_id ∧
          app_status a ≠ Rejected) ∧
       NoDup apps.*1) ∧
  (job_owner job ≠ Some user →
     run (job_applications request job_id) db = (Redirect "home" [], db)).
Proof.
  intros Hu Hj. rewrite (job_applications_run _ _ _ _ _ Hu Hj). split; intros Ho.
  - rewrite decide_True by done. eexists _, _. split; [done|]. split.
    + intros id a. rewrite list_elem_of_filter, elem_of_map_to_list. naive_solver.
    + apply listing_NoDup.
  - by rewrite decide_False.
Qed.

Lemma job_applications_spec_witness :
  ∃ nav,
    run (job_applications (Demo.as_user 1 GET []) 1) Demo.db =
      (Render "jobs/job_applications.html"
         (CtxJobApplications (1, mkJob "Logo" "a logo" 50 (Some 1) Completed 5)
            [(1, mkApplication 1 (Some 2) "f1" "mine" Accepted 7)]) nav, Demo.db).
Proof.
  destruct (job_applications_spec (Demo.as_user 1 GET []) 1 1 Demo.db
              (mkJob "Logo" "a logo" 50 (Some 1) Completed 5) eq_refl eq_refl)
    as [Hown _].
  destruct (Hown eq_refl) as (apps & nav & Hrun & _).
  exists nav. rewrite Hrun. vm_compute in Hrun. by injection Hrun as <- _.
Defined.

(** X10. [my_applications] shows a freelancer exactly their own
    applications whose job exists and is not completed, whatever the
    application's status. *)
Theorem my_applications_spec (request : Request) (user : nat) (db : DB)
    (p : Profile) :
  req_user request = Some user →
  profiles db !! user = Some p →
  role p = Freelancer →
  ∃ apps nav,
    run (my_applications request) db =
      (Render "jobs/my_applications.html" (CtxApplications apps) nav, db) ∧
    (∀ id a, (id, a) ∈ apps ↔
       applications db !! id = Some a ∧ app_applicant_user a = Some user ∧
       ∃ j, jobs db !! app_job a = Some j ∧ job_status j ≠ Completed) ∧
    NoDup apps.*1.
Proof.
  intros Hu Hp Hr. rewrite (my_applications_run _ _ _ _ Hu Hp Hr).
  eexists _, _. split; [done|]. split.
  - intros id a. rewrite list_elem_of_filter, elem_of_map_to_list.
    unfold job_not_completed. naive_solver.
  - apply listing_NoDup.
Qed.

Lemma my_applications_spec_witness :
  ∃ nav,
    run (my_applications (Demo.as_user 2 GET [])) Demo.db =
      (Render "jobs/my_applications.html"
         (CtxApplications [(3, mkApplication 2 (Some 2) "f1" "mine" Pending 9)])
         nav, Demo.db).
Proof.
  destruct (my_applications_spec (Demo.as_user 2 GET []) 2 Demo.db
              (mkProfile Freelancer 2))
    as (apps & nav & Hrun & _); [reflexivity..|].
  exists nav. rewrite Hrun. vm_compute in Hrun. by injection Hrun as <- _.
Defined.

(** ** Rejecting, and how the workflow steps combine *)

Lemma reject_application_run (request : Request) (app_id user : nat) (db : DB)
    (application : Application) (job : Job) :
  req_user request = Some user →
  req_method request = POST →
  applications db !! app_id = Some application →
  jobs db !! app_job application = Some job →
  run (reject_application request app_id) db =
    if decide (job_owner job = Some user) then
      (Redirect "job_applications" [app_job application],
       set_applications (insert app_id (with_app_status Rejected application)) db)
    else (HttpResponseForbidden "Not authorized to reject this application", db).
Proof.
  intros Hu Hm Ha Hj. view_unfold. rewrite Hu, Hm. simpl. rewrite Ha. simpl.
  rewrite Hj. by case_decide.
Qed.

Lemma accept_application_run (request : Request) (app_id user : nat) (db : DB)
    (application : Application) (job : Job) :
  req_user request = Some user →
  req_method request = POST →
  applications db !! app_id = Some application →
  jobs db !! app_job application = Some job →
  run (accept_application request app_id) db =
    if decide (job_owner job = Some user) then
      (Redirect "job_applications" [app_job application],
       set_jobs (insert (app_job application) (with_job_status InProgress job))
         (set_applications
            (insert app_id (with_app_status Accepted application)) db))
    else (HttpResponseForbidden "Not authorized to accept this application", db).
Proof.
  intros Hu Hm Ha Hj. view_unfold. rewrite Hu, Hm. simpl. rewrite Ha. simpl.
  rewrite Hj. by case_decide.
Qed.

(** X11. [reject_application] by the owner of the application's job sets
    the application rejected and changes nothing else: the job keeps its
    status, and the application is gone from the owner's listing of the
    job.  Anyone else is refused and nothing changes. *)
Theorem reject_application_spec (request : Request) (app_id user : nat) (db : DB)
    (application : Application) (job : Job) :
  req_user request = Some user →
  req_method request = POST →
  applications db !! app_id = Some application →
  jobs db !! app_job application = Some job →
  (job_owner job = Some user →
     ∃ db', run (reject_application request app_id) db =
              (Redirect "job_applications" [app_job application], db') ∧
       applications db' =
         <[app_id := with_app_status Rejected application]> (applications db) ∧
       jobs db' = jobs db ∧ messages db' = messages db ∧
       ∃ apps nav,
         run (job_applications request (app_job application)) db' =
           (Render "jobs/job_applications.html"
              (CtxJobApplications (app_job application, job) apps) nav, db') ∧
         app_id ∉ apps.*1) ∧
  (job_owner job ≠ Some user →
     ∃ reason, run (reject_application request app_id) db =
       (HttpResponseForbidden reason, db)).
Proof.
  intros Hu Hm Ha Hj. rewrite (reject_application_run _ _ _ _ _ _ Hu Hm Ha Hj).
  split; intros Ho.
  - rewrite decide_True by done. eexists. split; [done|]. split_and!; [done..|].
    rewrite (job_applications_run _ _ user _ job Hu) by done.
    rewrite decide_True by done. eexists _, _. split; [done|].
    intros Hin. apply list_elem_of_fmap in Hin as ([id a] & -> & Hin).
    apply list_elem_of_filter in Hin as [[_ Hs] Hin].
    apply elem_of_map_to_list in Hin. simpl in *.
    rewrite lookup_insert_eq in Hin. by injection Hin as <-.
  - rewrite decide_False by done. by eexists.
Qed.

Lemma reject_application_spec_witness :
  ∃ db', run (reject_application (Demo.as_user 1 POST []) 3) Demo.db =
           (Redirect "job_applications" [2], db') ∧
    applications db' !! 3 = Some (mkApplication 2 (Some 2) "f1" "mine" Rejected 9) ∧
    jobs db' = jobs Demo.db.
Proof.
  destruct (reject_application_spec (Demo.as_user 1 POST []) 3 1 Demo.db
    (mkApplication 2 (Some 2) "f1" "mine" Pending 9)
    (mkJob "Site" "a site" 0 (Some 1) InProgress 6)) as [Hown _];
    [reflexivity..|].
  destruct (Hown eq_refl) as (db' & Hrun & Happs & Hjobs & _).
  exists db'. split; [exact Hrun|]. split; [|exact Hjobs].
  rewrite Happs. apply lookup_insert_eq.
Defined.

(** X12. Once the owner has rejected an application, its applicant can
    delete it: the two requests together leave the database as it was,
    without that row. *)
Theorem reject_then_delete (owner_request applicant_request : Request)
    (app_id owner applicant : nat) (db : DB) (application : Application)
    (job : Job) :
  req_user owner_request = Some owner →
  req_method owner_request = POST →
  req_user applicant_request = Some applicant →
  req_method applicant_request = POST →
  applications db !! app_id = Some application →
  jobs db !! app_job application = Some job →
  job_owner job = Some owner →
  app_applicant_user application = Some applicant →
  run (delete_application applicant_request app_id)
      (run (reject_application owner_request app_id) db).2 =
    (Redirect "my_applications" [], set_applications (delete app_id) db).
Proof.
  intros Ho Hom Ha Ham Hl Hj Hown Happ.
  rewrite (reject_application_run _ _ _ _ _ _ Ho Hom Hl Hj).
  rewrite decide_True by done. view_unfold. rewrite Ha, Ham. simpl.
  rewrite lookup_insert_eq. simpl. rewrite decide_False by naive_solver.
  unfold set_applications. simpl. by rewrite delete_insert_eq.
Qed.

Lemma reject_then_delete_witness :
  run (delete_application (Demo.as_user 2 POST []) 3)
      (run (reject_application (Demo.as_user 1 POST []) 3) Demo.db).2 =
    (Redirect "my_applications" [], set_applications (delete 3) Demo.db).
Proof.
  apply (reject_then_delete (Demo.as_user 1 POST []) (Demo.as_user 2 POST []) 3 1 2
           Demo.db (mkApplication 2 (Some 2) "f1" "mine" Pending 9)
           (mkJob "Site" "a site" 0 (Some 1) InProgress 6)); reflexivity.
Defined.

(** X13. Accepting is not exclusive: when the owner accepts two
    applications of a job one after the other, both are accepted and the
    job is in progress. *)
Theorem accept_two_applications (request : Request) (app1 app2 owner : nat)
    (db : DB) (a1 a2 : Application) (job : Job) :
  req_user request = Some owner →
  req_method request = POST →
  applications db !! app1 = Some a1 →
  applications db !! app2 = Some a2 →
  app1 ≠ app2 →
  app_job a1 = app_job a2 →
  jobs db !! app_job a1 = Some job →
  job_owner job = Some owner →
  let db' := (run (accept_application request app2)
                (run (accept_application request app1) db).2).2 in
  applications db' !! app1 = Some (with_app_status Accepted a1) ∧
  applications db' !! app2 = Some (with_app_status Accepted a2) ∧
  jobs db' !! app_job a1 = Some (with_job_status InProgress job).
Proof.
  intros Hu Hm H1 H2 Hne Hsame Hj Ho db'. subst db'.
  rewrite (accept_application_run _ _ _ _ _ _ Hu Hm H1 Hj).
  rewrite decide_True by done. simpl.
  rewrite (accept_application_run _ app2 owner _ a2 (with_job_status InProgress job)
             Hu Hm).
  - rewrite decide_True by done. simpl.
    rewrite lookup_insert_ne by done. rewrite lookup_insert_eq.
    rewrite <- Hsame. by rewrite !lookup_insert_eq.
  - simpl. by rewrite lookup_insert_ne.
  - simpl. rewrite <- Hsame. by rewrite lookup_insert_eq.
Qed.

Lemma accept_two_applications_witness :
  let db' := (run (accept_application (Demo.as_user 1 POST []) 4)
                (run (accept_application (Demo.as_user 1 POST []) 3) Demo.db).2).2 in
  app_status <$> applications db' !! 3 = Some Accepted ∧
  app_status <$> applications db' !! 4 = Some Accepted.
Proof.
  destruct (accept_two_applications (Demo.as_user 1 POST []) 3 4 1 Demo.db
              (mkApplication 2 (Some 2) "f1" "mine" Pending 9)
              (mkApplication 2 (Some 3) "f2" "mine" Accepted 9)
              (mkJob "Site" "a site" 0 (Some 1) InProgress 6))
    as (H3 & H4 & _); try reflexivity; [done|].
  simpl. by rewrite H3, H4.
Defined.

Lemma complete_job_run (request : Request) (job_id user : nat) (db : DB)
    (job : Job) :
  req_user request = Some user →
  req_method request = POST →
  jobs db !! job_id = Some job →
  run (complete_job request job_id) db =
    if decide (job_owner job = Some user) then
      (Redirect "my_jobs" [],
       set_applications
         (qs_update (not_accepted_for job_id) (with_app_status Rejected))
         (set_jobs (insert job_id (with_job_status Completed job)) db))
    else (HttpResponseForbidden "Not authorized to complete this job", db).
Proof.
  intros Hu Hm Hj. view_unfold. rewrite Hu, Hm. simpl. rewrite Hj.
  by case_decide.
Qed.

Lemma my_jobs_run (request : Request) (user : nat) (db : DB) (p : Profile) :
  req_user request = Some user →
  profiles db !! user = Some p →
  role p = Client →
  ∃ nav, run (my_jobs request) db =
    (Render "jobs/my_jobs.html"
       (CtxMyJobs
          (sort_by (desc (job_created_at ∘ snd ∘ fst))
             ((λ r, (r, qs_count (λ a, app_job a = r.1 ∧ app_status a ≠ Rejected)
                          (applications db))) <$>
              filter (λ r, job_owner r.2 = Some user ∧ job_status r.2 ≠ Completed)
                (map_to_list (jobs db))))) nav, db).
Proof.
  intros Hu Hp Hr. unfold my_jobs, run, login_required. rewrite Hu.
  unfold mbind, View_bind, mret, View_ret. rewrite require_role_run, Hp.
  rewrite decide_True by done. view_unfold. by eexists.
Qed.

(** X14. Completing a job takes it off the owner's [my_jobs] page, and
    takes every application for it off the applicants' [my_applications]
    pages. *)
Theorem complete_job_hides (owner_request : Request) (job_id owner : nat)
    (db : DB) (job : Job) :
  req_user owner_request = Some owner →
  req_method owner_request = POST →
  jobs db !! job_id = Some job →
  job_owner job = Some owner →
  let db' := (run (complete_job owner_request job_id) db).2 in
  (∀ request p, req_user request = Some owner →
     profiles db !! owner = Some p → role p = Client →
     ∃ js nav, run (my_jobs request) db' =
                 (Render "jobs/my_jobs.html" (CtxMyJobs js) nav, db') ∧
       job_id ∉ (fst ∘ fst <$> js)) ∧
  (∀ request user p, req_user request = Some user →
     profiles db !! user = Some p → role p = Freelancer →
     ∃ apps nav, run (my_applications request) db' =
                   (Render "jobs/my_applications.html" (CtxApplications apps) nav,
                    db') ∧
       ∀ id a, (id, a) ∈ apps → app_job a ≠ job_id).
Proof.
  intros Hu Hm Hj Ho db'. subst db'.
  rewrite (complete_job_run _ _ _ _ _ Hu Hm Hj), decide_True by done. simpl.
  set (db' := set_applications
         (qs_update (not_accepted_for job_id) (with_app_status Rejected))
         (set_jobs (insert job_id (with_job_status Completed job)) db)).
  split.
  - intros request p Hr Hp Hc.
    destruct (my_jobs_run request owner db' p Hr Hp Hc) as [nav Hrun].
    eexists _, nav. split; [exact Hrun|].
    rewrite sort_by_perm. intros Hin.
    apply list_elem_of_fmap in Hin as ([[id j] n] & E & Hin). simpl in E. subst id.
    apply list_elem_of_fmap in Hin as ([id j'] & [= -> -> ->] & Hin).
    apply list_elem_of_filter in Hin as [[_ Hs] Hin].
    apply elem_of_map_to_list in Hin. simpl in *.
    rewrite lookup_insert_eq in Hin. by injection Hin as <-.
  - intros request user p Hr Hp Hf.
    rewrite (my_applications_run request user db' p Hr Hp Hf).
    eexists _, _. split; [done|]. intros id a Hin E.
    apply list_elem_of_filter in Hin as [[_ (j & Hl & Hs)] _]. simpl in *.
    rewrite E, lookup_insert_eq in Hl. by injection Hl as <-.
Qed.

Lemma complete_job_hides_witness :
  let db' := (run (complete_job (Demo.as_user 1 POST []) 2) Demo.db).2 in
  ∃ nav, run (my_applications (Demo.as_user 2 GET [])) db' =
    (Render "jobs/my_applications.html" (CtxApplications []) nav, db').
Proof.
  destruct (complete_job_hides (Demo.as_user 1 POST []) 2 1 Demo.db
              (mkJob "Site" "a site" 0 (Some 1) InProgress 6))
    as [_ Happs]; [reflexivity..|].
  destruct (Happs (Demo.as_user 2 GET []) 2 (mkProfile Freelancer 2))
    as (apps & nav & Hrun & _); [reflexivity..|].
  exists nav. rewrite Hrun. vm_compute in Hrun. by injection Hrun as <- _.
Defined.

(** ** Messages *)




(** X16. What [clear_chat] deletes and keeps, as the code has it: of the
    messages there were, those of the job whose sender and receiver are
    both among the requester and the other user are gone, and every other
    message — another job, or a third user on either side — is still
    there, unchanged; no other table changes. *)
Theorem clear_chat_spec (request : Request) (job_id user_id user : nat)
    (db : DB) (job : Job) (other : User) :
  req_user request = Some user →
  req_method request = POST →
  jobs db !! job_id = Some job →
  users db !! user_id = Some other →
  authorized db job_id user job →
  ∃ db', run (clear_chat request job_id user_id) db =
           (Redirect "conversation" [job_id; user_id], db') ∧
    users db' = users db ∧ profiles db' = profiles db ∧ jobs db' = jobs db ∧
    applications db' = applications db ∧
    (∀ id m, messages db' !! id = Some m → messages db !! id = Some m) ∧
    (∀ id m, messages db !! id = Some m →
       msg_job m = job_id →
       (msg_sender m = user ∨ msg_sender m = user_id) →
       (msg_receiver m = user ∨ msg_receiver m = user_id) →
       messages db' !! id = None) ∧
    (∀ id m, messages db !! id = Some m →
       (msg_job m ≠ job_id ∨
        (msg_sender m ≠ user ∧ msg_sender m ≠ user_id) ∨
        (msg_receiver m ≠ user ∧ msg_receiver m ≠ user_id)) →
       messages db' !! id = Some m).
Proof.
  intros Hu Hm Hj Ho Hauth. apply authorization_test in Hauth.
  rewrite (clear_chat_run _ _ _ _ _ _ _ Hu Hm Hj Ho), Hauth.
  eexists. split; [done|]. simpl. split_and!; try done.
  - intros id m Hl. by apply qs_delete_lookup_Some in Hl as [? _].
  - intros id m Hl Hjob Hs Hr. eapply qs_delete_lookup_None; [done|].
    unfold in_chat. rewrite !elem_of_cons, !elem_of_nil. naive_solver.
  - intros id m Hl Hout. apply qs_delete_lookup_Some. split; [done|].
    unfold in_chat. rewrite !elem_of_cons, !elem_of_nil. naive_solver.
Qed.

Lemma clear_chat_spec_witness :
  ∃ db', run (clear_chat (Demo.as_user 1 POST []) 1 2) Demo.db =
           (Redirect "conversation" [1; 2], db') ∧
    messages db' !! 1 = None ∧ messages db' !! 5 = messages Demo.db !! 5.
Proof.
  destruct (clear_chat_spec (Demo.as_user 1 POST []) 1 2 1 Demo.db
              (mkJob "Logo" "a logo" 50 (Some 1) Completed 5) (Demo.person "f1"))
    as (db' & Hrun & _ & _ & _ & _ & _ & Hgone & Hkept);
    [reflexivity..|by left|].
  exists db'. split; [exact Hrun|]. split.
  - apply (Hgone 1 (mkMessage 1 2 1 "hi" true 10)); [reflexivity..|by left|by right].
  - rewrite (Hkept 5 (mkMessage 3 1 2 "done?" false 14)); [done..|].
    left. simpl. lia.
Defined.

Lemma serve_messages (rt : Runtime) (route : Route) (request : Request)
    (db : DB) :
  let db' := (serve rt route request db).2 in
  messages db' = messages db ∨
  (∃ job_id user_id user job other, route = url_conversation job_id user_id ∧
     req_user request = Some user ∧ jobs db !! job_id = Some job ∧
     users db !! user_id = Some other ∧
     let marked := messages (mark_read job_id user user_id db) in
     (messages db' = marked ∨
      ∃ content, messages db' =
        <[next_pk (seq_messages db) marked :=
            mkMessage user user_id job_id content false (req_now request)]>
          marked)) ∨
  (∃ job_id user_id user, route = url_clear_chat job_id user_id ∧
     req_user request = Some user ∧
     messages db' = qs_delete (in_chat job_id user user_id) (messages db)).
Proof.
  destruct route; view_unfold; view_cases; auto.
  - right; left. eexists _, _, _, _, _. split_and!; eauto.
  - right; left. eexists _, _, _, _, _. split_and!; eauto.
  - right; left. eexists _, _, _, _, _. split_and!; eauto.
  - right; right. eauto 6.
Qed.

(** X17. A message is never edited.  Whatever the request, a message that
    was there is afterwards either the same, or the same with [read] set
    (its receiver opened the thread with its sender), or gone (somebody
    cleared the chat it is in).  So a message that has been read is never
    unread again. *)
Theorem message_rows_step (rt : Runtime) (route : Route)
    (request : Request) (db : DB) (id : nat) (m : Message) :
  messages db !! id = Some m →
  let db' := (serve rt route request db).2 in
  messages db' !! id = Some m ∨
  (messages db' !! id = Some (with_msg_read true m) ∧
   req_user request = Some (msg_receiver m) ∧
   route = url_conversation (msg_job m) (msg_sender m)) ∨
  (messages db' !! id = None ∧
   ∃ user user_id, route = url_clear_chat (msg_job m) user_id ∧
     req_user request = Some user ∧
     msg_sender m ∈ [user; user_id] ∧ msg_receiver m ∈ [user; user_id]).
Proof.
  intros Hl db'. subst db'.
  assert (∀ job_id user user_id,
    messages (mark_read job_id user user_id db) !! id = Some m ∨
    (messages (mark_read job_id user user_id db) !! id = Some (with_msg_read true m)
     ∧ user = msg_receiver m ∧ job_id = msg_job m ∧ user_id = msg_sender m))
    as Hmark.
  { intros job_id user user_id. rewrite mark_read_lookup, Hl. simpl.
    destruct (decide (unread_from job_id user user_id m)) as [(?&?&?&?)|]; auto. }
  destruct (serve_messages rt route request db)
    as [->|[(job_id & user_id & user & job & other & -> & Hu & _ & _ & Hcase)|
            (job_id & user_id & user & -> & Hu & ->)]].
  - by left.
  - cbv zeta in Hcase.
    assert (messages (serve rt (url_conversation job_id user_id) request db).2 !! id
            = messages (mark_read job_id user user_id db) !! id) as ->.
    { destruct Hcase as [->|[content ->]]; [done|].
      apply lookup_insert_ne. intros E.
      pose proof (next_pk_fresh (seq_messages db) (messages (mark_read job_id user user_id db))) as Hf.
      rewrite E in Hf. destruct (Hmark job_id user user_id) as [?|[? _]]; congruence. }
    destruct (Hmark job_id user user_id) as [?|(? & -> & -> & ->)]; auto.
  - destruct (decide (in_chat job_id user user_id m)) as [(<- & ? & ?)|Hn].
    + right; right. split.
      * eapply qs_delete_lookup_None; [done|]. by split_and!.
      * by eexists _, _.
    + left. by apply qs_delete_lookup_Some.
Qed.

Lemma message_rows_step_witness :
  messages
    (serve Demo.runtime (url_conversation 1 2) (Demo.as_user 1 GET []) Demo.db).2 !! 2
    = Some (mkMessage 2 1 1 "hello" true 11).
Proof.
  destruct (message_rows_step Demo.runtime (url_conversation 1 2)
              (Demo.as_user 1 GET []) Demo.db 2
              (mkMessage 2 1 1 "hello" false 11) eq_refl)
    as [H|[[H _]|[H _]]].
  - vm_compute in H. discriminate.
  - exact H.
  - vm_compute in H. discriminate.
Defined.

(** ** Unread counts *)

Lemma sum_list_with_ext {K} (g g' : K → nat) (ks : list K) :
  (∀ k, g k = g' k) → sum_list_with g ks = sum_list_with g' ks.
Proof. intros E. induction ks as [|k ks IH]; simpl; [done|]. by rewrite E, IH. Qed.

Lemma sum_list_with_bump {K} `{EqDecision K} (g g' : K → nat) (y : K)
    (ks : list K) :
  NoDup ks → y ∈ ks →
  (∀ k, g' k = if decide (k = y) then S (g k) else g k) →
  sum_list_with g' ks = S (sum_list_with g ks).
Proof.
  intros Hnd Hin E. induction Hnd as [|k ks Hk Hnd IH]; simpl.
  - by apply elem_of_nil in Hin.
  - rewrite E. destruct (decide (k = y)) as [->|Hne].
    + simpl. f_equal. f_equal.
      clear IH Hin. induction ks as [|k ks IH]; simpl; [done|].
      apply not_elem_of_cons in Hk as [Hne Hk]. apply NoDup_cons in Hnd as [_ Hnd].
      rewrite E, decide_False by done. f_equal. by apply IH.
    + apply elem_of_cons in Hin as [->|Hin]; [done|].
      rewrite IH by done. lia.
Qed.

(** Counting the rows that satisfy [P] key by key. *)
Lemma length_filter_by_key {A K} `{EqDecision K} (P : A → Prop)
    `{∀ x, Decision (P x)} (f : A → K) (ks : list K) (l : list A) :
  NoDup ks →
  (∀ x, x ∈ l → P x → f x ∈ ks) →
  length (filter P l) =
    sum_list_with (λ k, length (filter (λ x, P x ∧ f x = k) l)) ks.
Proof.
  intros Hnd. induction l as [|x l IH]; intros Hks.
  - clear Hnd Hks. induction ks as [|k ks IHks]; [done|].
    simpl in *. by rewrite <- IHks.
  - assert (∀ y, y ∈ l → P y → f y ∈ ks) as Hks'.
    { intros y Hy. apply Hks. by right. }
    destruct (decide (P x)) as [HP|HP].
    + rewrite filter_cons_True by done. simpl. rewrite (IH Hks').
      symmetry. apply (sum_list_with_bump _ _ (f x)); [done|apply Hks; [by left|done]|].
      intros k. destruct (decide (k = f x)) as [->|Hne].
      * by rewrite filter_cons_True.
      * rewrite filter_cons_False; [done|]. naive_solver.
    + rewrite filter_cons_False by done. rewrite (IH Hks').
      apply sum_list_with_ext. intros k.
      rewrite filter_cons_False; [done|]. naive_solver.
Qed.

Lemma qs_count_ext {A} (P Q : A → Prop) `{∀ a, Decision (P a)}
    `{∀ a, Decision (Q a)} (t : gmap nat A) :
  (∀ a, P a ↔ Q a) → qs_count P t = qs_count Q t.
Proof.
  intros E. unfold qs_count. f_equal. apply list_filter_iff. intros [k a]. apply E.
Qed.

Lemma qs_count_fmap {A} (P : A → Prop) `{∀ a, Decision (P a)} (f : A → A)
    (t : gmap nat A) :
  qs_count P (f <$> t) = qs_count (λ a, P (f a)) t.
Proof.
  rewrite !qs_count_size.
  rewrite (map_filter_fmap (λ r : nat * A, P r.2) f t), map_size_fmap.
  by f_equal.
Qed.

Lemma qs_count_split {A} (P U : A → Prop) `{∀ a, Decision (P a)}
    `{∀ a, Decision (U a)} (t : gmap nat A) :
  qs_count P t = qs_count (λ a, P a ∧ U a) t + qs_count (λ a, P a ∧ ¬ U a) t.
Proof.
  unfold qs_count. induction (map_to_list t) as [|r l IH]; [done|].
  destruct (decide (P r.2)) as [HP|HP]; [destruct (decide (U r.2)) as [HU|HU]|].
  - rewrite !filter_cons_True, (filter_cons_False _ r) by naive_solver.
    simpl. by rewrite IH.
  - rewrite (filter_cons_True _ r), (filter_cons_False _ r),
      (filter_cons_True _ r) by naive_solver.
    simpl. rewrite IH. lia.
  - by rewrite !filter_cons_False by naive_solver.
Qed.

Lemma qs_count_none {A} (P : A → Prop) `{∀ a, Decision (P a)} (t : gmap nat A) :
  (∀ a, ¬ P a) → qs_count P t = 0.
Proof.
  intros HP. unfold qs_count. induction (map_to_list t) as [|r l IH]; [done|].
  by rewrite filter_cons_False by apply HP.
Qed.

Lemma conversations_of_entry (user : nat) (db : DB) (c : Conversation) :
  c ∈ conversations_of user db →
  unread_count c =
    qs_count (unread_from (conv_job c) user (conv_other_user c)) (messages db).
Proof.
  unfold conversations_of. rewrite elem_of_sort_by. intros Hc.
  apply list_elem_of_fmap in Hc as ([k c'] & -> & He).
  apply conversations_entries in He as [He|(_ & msg & _ & _ & [= _ ->] & _)].
  - by apply elem_of_nil in He.
  - done.
Qed.

Lemma conversations_of_keys (user : nat) (db : DB) :
  NoDup (conv_key <$> conversations_of user db) ∧
  ∀ id m, messages db !! id = Some m → involves user m →
    (other_user_of user m, msg_job m) ∈ (conv_key <$> conversations_of user db).
Proof.
  unfold conversations_of. split.
  - rewrite sort_by_perm, conversations_keyed.
    apply conversations_NoDup. constructor.
  - intros id m Hl Hi. rewrite sort_by_perm, conversations_keyed.
    apply conversations_keys. right.
    apply list_elem_of_fmap. exists (id, m). split; [done|].
    rewrite elem_of_sort_by, list_elem_of_filter, elem_of_map_to_list. done.
Qed.

(** X18. The unread badge is the sum of the unread counts of the user's
    conversations: the context processor and [get_unread_message_count]
    count the same messages, and each of them falls into exactly one entry
    of [my_conversations]. *)
Theorem unread_badge_is_sum (request : Request) (user : nat) (db : DB) :
  req_user request = Some user →
  unread_messages request db = get_unread_message_count (Some user) db ∧
  unread_messages request db =
    sum_list_with unread_count (conversations_of user db).
Proof.
  intros Hu. unfold unread_messages, get_unread_message_count. rewrite Hu.
  split; [done|].
  destruct (conversations_of_keys user db) as [Hnd Hcover].
  unfold qs_count at 1.
  rewrite (length_filter_by_key _ (λ r, (msg_sender r.2, msg_job r.2))
             (conv_key <$> conversations_of user db)); [|done|].
  - clear Hnd Hcover. pose proof (conversations_of_entry user db) as Hentry.
    induction (conversations_of user db) as [|c convs IH]; [done|]. csimpl.
    rewrite IH.
    + f_equal. rewrite (Hentry c) by by left. unfold qs_count. f_equal.
      apply list_filter_iff. intros [id m]. unfold unread_from, conv_key. simpl.
      naive_solver.
    + intros c' Hc'. apply Hentry. by right.
  - intros [id m] Hin [Hr Hread]. simpl in *. apply elem_of_map_to_list in Hin.
    assert (other_user_of user m = msg_sender m) as <-.
    { unfold other_user_of. by rewrite decide_True. }
    eapply Hcover; [done|]. by right.
Qed.

Lemma unread_badge_is_sum_witness :
  unread_messages (Demo.as_user 1 GET []) Demo.db = 3 ∧
  sum_list_with unread_count (conversations_of 1 Demo.db) = 3.
Proof.
  destruct (unread_badge_is_sum (Demo.as_user 1 GET []) 1 Demo.db eq_refl)
    as [_ Hsum].
  split; [reflexivity|]. rewrite <- Hsum. reflexivity.
Defined.

(** X19. After an authorized user has opened a thread, no message of that
    thread is unread for them, and their badge has dropped by exactly the
    number of messages that were marked. *)
Theorem view_clears_unread (request : Request) (job_id user_id user : nat)
    (db : DB) (job : Job) (other : User) :
  req_user request = Some user →
  req_method request ≠ POST →
  jobs db !! job_id = Some job →
  users db !! user_id = Some other →
  authorized db job_id user job →
  let db' := (run (conversation request job_id user_id) db).2 in
  qs_count (unread_from job_id user user_id) (messages db') = 0 ∧
  unread_messages request db'
    + qs_count (unread_from job_id user user_id) (messages db)
  = unread_messages request db.
Proof.
  intros Hu Hm Hj Ho Hauth db'. subst db'. apply authorization_test in Hauth.
  rewrite (conversation_run_view _ _ _ _ _ _ _ Hu Hm Hj Ho), Hauth.
  unfold unread_messages. rewrite Hu. unfold mark_read. simpl.
  unfold qs_update. rewrite !qs_count_fmap. split.
  - apply qs_count_none. intros m.
    destruct (decide (unread_from job_id user user_id m)) as [HU|HU]; [|done].
    unfold unread_from. simpl. naive_solver.
  - rewrite (qs_count_split (λ m, msg_receiver m = user ∧ msg_read m = false)
               (unread_from job_id user user_id) (messages db)).
    rewrite Nat.add_comm. f_equal.
    + apply qs_count_ext. intros m. unfold unread_from. naive_solver.
    + apply qs_count_ext. intros m.
      destruct (decide (unread_from job_id user user_id m)) as [HU|HU];
        simpl; naive_solver.
Qed.

Lemma view_clears_unread_witness :
  let db' := (run (conversation (Demo.as_user 1 GET []) 1 2) Demo.db).2 in
  qs_count (unread_from 1 1 2) (messages db') = 0 ∧
  unread_messages (Demo.as_user 1 GET []) db' + 1 = 3.
Proof.
  apply (view_clears_unread (Demo.as_user 1 GET []) 1 2 1 Demo.db
           (mkJob "Logo" "a logo" 50 (Some 1) Completed 5) (Demo.person "f1"));
    [reflexivity|discriminate|reflexivity|reflexivity|by left].
Defined.

(** ** Accounts, and what every request keeps *)

Lemma serve_users (rt : Runtime) (route : Route) (request : Request)
    (db : DB) :
  let db' := (serve rt route request db).2 in
  (users db' = users db ∧ profiles db' = profiles db) ∨
  ∃ r e fn ln,
    (route = url_signup_client ∧ r = Client ∨
     route = url_signup_freelancer ∧ r = Freelancer) ∧
    req_user request = None ∧ req_method request = POST ∧
    form_value request "email" = Some e ∧
    form_value request "first_name" = Some fn ∧
    form_value request "last_name" = Some ln ∧
    is_Some (form_value request "password") ∧
    (∀ k u, users db !! k = Some u → username u ≠ py_normalize_username rt e) ∧
    users db' =
      <[next_pk (seq_users db) (users db) :=
          mkUser (py_normalize_username rt e) (py_normalize_email rt e) fn ln]>
        (users db) ∧
    profiles db' =
      <[next_pk (seq_users db) (users db) := mkProfile r (req_now request)]>
        (profiles db).
Proof.
  destruct route; view_unfold; view_cases; auto; right.
  - eexists Client, _, _, _. split_and!; eauto.
    intros k u Hk E.
    match goal with H : qs_exists _ _ = false |- _ =>
      apply not_true_iff_false in H; apply H; apply qs_exists_true; by eauto end.
  - eexists Freelancer, _, _, _. split_and!; eauto.
    intros k u Hk E.
    match goal with H : qs_exists _ _ = false |- _ =>
      apply not_true_iff_false in H; apply H; apply qs_exists_true; by eauto end.
Qed.

(** X20. Signing up, with four non-empty fields posted.  A logged-in user
    is sent home.  For an anonymous visitor: when the posted address is
    some account's user name, the page comes back with an error; when it
    is not, but its normalized form is, the unique constraint makes it a
    server error; in both cases nothing is written.  Otherwise an account
    is found afterwards under a key that was not in use and was never
    given before, with the normalized user name and address, and with a
    profile of the role of the page used; every other row is as it was. *)
Theorem signup_spec (normalize_username normalize_email : string → string)
    (r : Role) (request : Request) (db : DB) (e pw fn ln : string) :
  req_method request = POST →
  form_value request "email" = Some e →
  form_value request "password" = Some pw →
  form_value request "first_name" = Some fn →
  form_value request "last_name" = Some ln →
  let signup := signup_as normalize_username normalize_email r request in
  let taken name := ∃ k u, users db !! k = Some u ∧ username u = name in
  (∀ user, req_user request = Some user →
     run signup db = (Redirect "home" [], db)) ∧
  (req_user request = None → taken e →
     ∃ nav, run signup db =
       (Render "registration/signup.html"
          (CtxSignup (Some "Email already registered.") r) nav, db)) ∧
  (req_user request = None → ¬ taken e → taken (normalize_username e) →
     run signup db = (ServerError, db)) ∧
  (req_user request = None → ¬ taken e → ¬ taken (normalize_username e) →
     ∃ user db',
       run signup db = (Redirect "home" [], db') ∧
       users db !! user = None ∧
       (seq_users db < user)%nat ∧
       users db' !! user =
         Some (mkUser (normalize_username e) (normalize_email e) fn ln) ∧
       profiles db' !! user = Some (mkProfile r (req_now request)) ∧
       (∀ k, k ≠ user → users db' !! k = users db !! k ∧
                         profiles db' !! k = profiles db !! k) ∧
       jobs db' = jobs db ∧ applications db' = applications db ∧
       messages db' = messages db).
Proof.
  intros Hm He Hpw Hfn Hln signup taken. subst signup taken.
  assert (∀ name, qs_exists (λ u, username u = name) (users db) = true
                  ↔ ∃ k u, users db !! k = Some u ∧ username u = name) as Hex.
  { intros name. apply qs_exists_true. }
  assert (∀ name, ¬ (∃ k u, users db !! k = Some u ∧ username u = name) →
                  qs_exists (λ u, username u = name) (users db) = false) as Hnex.
  { intros name Hn. apply not_true_iff_false. by rewrite Hex. }
  split_and!.
  - intros user Hu. view_unfold. by rewrite Hm, Hu.
  - intros Hu Htaken. view_unfold. rewrite Hm, Hu. simpl.
    rewrite He, Hpw, Hfn, Hln. apply Hex in Htaken. rewrite Htaken.
    by eexists.
  - intros Hu Hfree Htaken. view_unfold. rewrite Hm, Hu. simpl.
    rewrite He, Hpw, Hfn, Hln. apply Hex in Htaken.
    by rewrite (Hnex _ Hfree), Htaken.
  - intros Hu Hfree Hnfree.
    exists (next_pk (seq_users db) (users db)). eexists. split.
    + view_unfold. rewrite Hm, Hu. simpl. rewrite He, Hpw, Hfn, Hln.
      by rewrite (Hnex _ Hfree), (Hnex _ Hnfree).
    + simpl. split_and!; try done.
      * apply next_pk_fresh.
      * apply next_pk_above.
      * apply lookup_insert_eq.
      * apply lookup_insert_eq.
      * intros k Hk. by rewrite !lookup_insert_ne.
Qed.

Lemma signup_spec_witness :
  ∃ nav,
    run (signup_client id id
           (mkRequest None POST
              (list_to_map [("email", "c1"); ("password", "p");
                            ("first_name", "a"); ("last_name", "b")]) 20))
        Demo.db =
      (Render "registration/signup.html"
         (CtxSignup (Some "Email already registered.") Client) nav, Demo.db).
Proof.
  refine (proj1 (proj2 (signup_spec id id Client
    (mkRequest None POST
       (list_to_map [("email", "c1"); ("password", "p");
                     ("first_name", "a"); ("last_name", "b")]) 20)
    Demo.db "c1" "p" "a" "b" _ _ _ _ _)) _ _); try reflexivity.
  exists 1, (Demo.person "c1"). by split.
Defined.

(** X21. No request deletes or alters an account, and user names stay
    unique: if no two accounts share a user name before a request, none do
    after it (a sign-up whose normalized user name is taken stops at the
    unique constraint). *)
Theorem accounts_kept (rt : Runtime) (route : Route)
    (request : Request) (db : DB) :
  let db' := (serve rt route request db).2 in
  (∀ k u, users db !! k = Some u → users db' !! k = Some u) ∧
  (∀ k p, profiles db !! k = Some p → is_Some (users db !! k) →
     profiles db' !! k = Some p) ∧
  (usernames_unique db → usernames_unique db').
Proof.
  intros db'. subst db'. unfold usernames_unique.
  destruct (serve_users rt route request db)
    as [[-> ->]|(r & e & fn & ln & _ & _ & _ & _ & _ & _ & _ & Hfree & -> & ->)].
  { done. }
  pose proof (next_pk_fresh (seq_users db) (users db)) as Hfresh.
  split_and!.
  - intros k u Hk. rewrite lookup_insert_ne; [done|]. intros E. congruence.
  - intros k p Hk [u Hu]. rewrite lookup_insert_ne; [done|]. intros E. congruence.
  - intros Huniq u1 u2 r1 r2 H1 H2 Hname.
    rewrite lookup_insert in H1, H2.
    destruct (decide (next_pk (seq_users db) (users db) = u1)) as [<-|?];
      destruct (decide (next_pk (seq_users db) (users db) = u2)) as [<-|?]; simplify_eq; try done.
    + simpl in Hname. by destruct (Hfree u2 r2).
    + simpl in Hname. by destruct (Hfree u1 r1).
    + by eapply Huniq.
Qed.

Lemma accounts_kept_witness :
  usernames_unique
    (serve Demo.runtime url_signup_freelancer
       (mkRequest None POST
          (list_to_map [("email", "f3"); ("password", "p");
                        ("first_name", "a"); ("last_name", "b")]) 20)
       Demo.db).2.
Proof.
  apply (accounts_kept Demo.runtime url_signup_freelancer
           (mkRequest None POST
              (list_to_map [("email", "f3"); ("password", "p");
                            ("first_name", "a"); ("last_name", "b")]) 20)
           Demo.db).
  intros u1 u2 r1 r2 H1 H2 E.
  apply elem_of_map_to_list in H1, H2. vm_compute in H1, H2.
  repeat (apply elem_of_cons in H1 as [H1|H1]; [injection H1 as -> ->|]);
    [..|by apply elem_of_nil in H1];
    (repeat (apply elem_of_cons in H2 as [H2|H2]; [injection H2 as -> ->|]);
       [..|by apply elem_of_nil in H2]); done.
Defined.

Lemma serve_application_refs (rt : Runtime) (route : Route)
    (request : Request) (db : DB) (id : nat) (a' : Application) :
  applications (serve rt route request db).2 !! id = Some a' →
  (∃ a, applications db !! id = Some a ∧ app_job a' = app_job a) ∨
  is_Some (jobs db !! app_job a').
Proof.
  destruct route; view_unfold; view_cases; intros Hl; eauto.
  - rewrite lookup_insert in Hl. case_decide; simplify_eq; eauto.
  - rewrite lookup_insert in Hl. case_decide; simplify_eq; eauto.
  - rewrite lookup_insert in Hl. case_decide; simplify_eq; eauto.
  - rewrite qs_update_lookup in Hl.
    destruct (applications db !! id) as [a|] eqn:E; [|done].
    simpl in Hl. left. exists a. split; [done|].
    injection Hl as <-. by case_decide.
  - apply lookup_delete_Some in Hl as [_ Hl]. eauto.
Qed.

(** X22. Foreign keys stay sound.  If every application and message points
    to a job that exists, every message to a receiver that exists and
    every profile to a user that exists, then this is so after any request
    too; and no request removes a job. *)
Theorem references_kept (rt : Runtime) (route : Route)
    (request : Request) (db : DB) :
  refs_ok db →
  refs_ok (serve rt route request db).2 ∧
  (∀ job_id, is_Some (jobs db !! job_id) →
     is_Some (jobs (serve rt route request db).2 !! job_id)).
Proof.
  intros (Happs & Hmsgs & Hprofs).
  assert (∀ job_id, is_Some (jobs db !! job_id) →
            is_Some (jobs (serve rt route request db).2 !! job_id)) as Hjobs.
  { intros job_id [job Hj].
    destruct (serve_job_step rt route request db job_id job Hj) as (j' & E & _).
    by rewrite E. }
  assert (∀ k, is_Some (users db !! k) →
            is_Some (users (serve rt route request db).2 !! k)) as Husers.
  { intros k [u Hk].
    destruct (serve_users rt route request db)
      as [[-> _]|(r & e & fn & ln & _ & _ & _ & _ & _ & _ & _ & _ & -> & _)];
      [done|].
    rewrite lookup_insert_ne; [done|]. intros E.
    pose proof (next_pk_fresh (seq_users db) (users db)). congruence. }
  split; [|done]. split_and!.
  - intros id a' Hl. apply Hjobs.
    destruct (serve_application_refs _ _ _ _ _ _ Hl) as [(a & Ha & E)|?]; [|done].
    rewrite E. eauto.
  - intros id m' Hl.
    assert (∃ m, (messages db !! id = Some m ∨
                  is_Some (jobs db !! msg_job m) ∧ is_Some (users db !! msg_receiver m))
                 ∧ msg_job m' = msg_job m ∧ msg_receiver m' = msg_receiver m)
      as (m & Hm & -> & ->).
    { destruct (serve_messages rt route request db)
        as [E|[(job_id & user_id & user & job & other & _ & _ & Hj & Ho & Hcase)|
               (job_id & user_id & user & _ & _ & E)]].
      - rewrite E in Hl. eauto.
      - cbv zeta in Hcase.
        assert (∀ m1, messages (mark_read job_id user user_id db) !! id = Some m1 →
                  ∃ m, messages db !! id = Some m ∧ msg_job m1 = msg_job m ∧
                       msg_receiver m1 = msg_receiver m) as Hmark.
        { intros m1. rewrite mark_read_lookup.
          destruct (messages db !! id) as [m|]; [|done]. simpl. intros [= <-].
          exists m. by case_decide. }
        destruct Hcase as [E|[content E]]; rewrite E in Hl.
        + destruct (Hmark _ Hl) as (m & ? & ? & ?). eauto.
        + rewrite lookup_insert in Hl. case_decide.
          * injection Hl as <-.
            exists (mkMessage user user_id job_id content false (req_now request)).
            simpl. split_and!; eauto.
          * destruct (Hmark _ Hl) as (m & ? & ? & ?). eauto.
      - rewrite E in Hl. apply qs_delete_lookup_Some in Hl as [Hl _]. eauto. }
    destruct Hm as [Hm|[? ?]]; [destruct (Hmsgs _ _ Hm)|]; auto.
  - intros u p Hl.
    destruct (serve_users rt route request db)
      as [[E1 E2]|(r & e & fn & ln & _ & _ & _ & _ & _ & _ & _ & _ & E1 & E2)].
    + rewrite E1. rewrite E2 in Hl. eauto.
    + rewrite E1. rewrite E2 in Hl. rewrite lookup_insert in Hl.
      rewrite lookup_insert. case_decide; [done|]. eauto.
Qed.

Lemma references_kept_witness :
  refs_ok (serve Demo.runtime (url_apply_job 1)
             (Demo.as_user 3 POST [("applicant_name", "f2"); ("proposal", "again")])
             Demo.db).2.
Proof.
  apply (references_kept Demo.runtime (url_apply_job 1)
           (Demo.as_user 3 POST [("applicant_name", "f2"); ("proposal", "again")])
           Demo.db).
  split_and!.
  - intros id a H. apply elem_of_map_to_list in H. vm_compute in H.
    repeat (apply elem_of_cons in H as [H|H]; [injection H as -> ->|]);
      [..|by apply elem_of_nil in H]; by eexists.
  - intros id m H. apply elem_of_map_to_list in H. vm_compute in H.
    repeat (apply elem_of_cons in H as [H|H]; [injection H as -> ->|]);
      [..|by apply elem_of_nil in H]; split; by eexists.
  - intros u p H. apply elem_of_map_to_list in H. vm_compute in H.
    repeat (apply elem_of_cons in H as [H|H]; [injection H as -> ->|]);
      [..|by apply elem_of_nil in H]; by eexists.
Defined.

(** X23. Only the status of a job or of an application is ever written:
    whatever the request, a job that was there is still there with the
    same title, description, budget, owner and creation time, and an
    application that was there is gone or has the same job, applicant,
    name, proposal and creation time. *)
Theorem rows_keep_fields (rt : Runtime) (route : Route)
    (request : Request) (db : DB) :
  let db' := (serve rt route request db).2 in
  (∀ job_id job, jobs db !! job_id = Some job →
     ∃ s, jobs db' !! job_id = Some (with_job_status s job)) ∧
  (∀ app_id a, applications db !! app_id = Some a →
     applications db' !! app_id = None ∨
     ∃ s, applications db' !! app_id = Some (with_app_status s a)).
Proof.
  intros db'. subst db'. split.
  - intros job_id job Hj.
    destruct (serve_job_step rt route request db job_id job Hj)
      as (job' & -> & [->|[[-> _]|[-> _]]]); eauto.
    exists (job_status job). by destruct job.
  - intros app_id a Ha.
    assert (Some a = Some (with_app_status (app_status a) a)) as Hsame
      by by destruct a.
    destruct (serve_applications rt route request db)
      as [->|[(job_id & a0 & _ & _ & ->)|[(app_id' & a0 & j & _ & Ha0 & _ & _ & ->)|
          [(app_id' & a0 & j & _ & Ha0 & _ & _ & ->)|
           [(job_id & j & _ & _ & _ & ->)|(app_id' & a0 & _ & _ & _ & _ & ->)]]]]].
    + right. exists (app_status a). rewrite Ha. congruence.
    + right. exists (app_status a). rewrite lookup_insert_ne; [rewrite Ha; congruence|].
      intros E. pose proof (next_pk_fresh (seq_applications db) (applications db)). congruence.
    + right. rewrite lookup_insert. case_decide; simplify_eq; [by eexists|].
      exists (app_status a). rewrite Ha. congruence.
    + right. rewrite lookup_insert. case_decide; simplify_eq; [by eexists|].
      exists (app_status a). rewrite Ha. congruence.
    + right. rewrite qs_update_lookup, Ha. simpl.
      case_decide; [by eexists|]. exists (app_status a). congruence.
    + rewrite lookup_delete. case_decide; [by left|].
      right. exists (app_status a). rewrite Ha. congruence.
Qed.

Lemma rows_keep_fields_witness :
  ∃ s, jobs (serve Demo.runtime (url_complete_job 2) (Demo.as_user 1 POST [])
               Demo.db).2 !! 2
       = Some (with_job_status s (mkJob "Site" "a site" 0 (Some 1) InProgress 6)).
Proof.
  apply (proj1 (rows_keep_fields Demo.runtime (url_complete_job 2)
                  (Demo.as_user 1 POST []) Demo.db) 2
               (mkJob "Site" "a site" 0 (Some 1) InProgress 6)).
  reflexivity.
Defined.

(** ** The navigation bar *)

(** X24. The navigation bar agrees with the role tests of the pages: a
    logged-in user is offered "Post Job", "My Jobs", "Available Jobs" and
    "My Applications" exactly when the page behind the link shows itself to
    them instead of sending them home; and the last link is always
    "Logout". *)
Theorem navbar_links_open_pages (int : string → option Z) (request : Request)
    (user : nat) (db : DB) :
  req_user request = Some user →
  req_method request = GET →
  let nav := navbar_links_for (Some user) db in
  let shown (v : View Response) := ∃ t c n, (run v db).1 = Render t c n in
  (("Post Job", "post_job") ∈ nav ↔ shown (post_job int request)) ∧
  (("My Jobs", "my_jobs") ∈ nav ↔ shown (my_jobs request)) ∧
  (("Available Jobs", "available_jobs") ∈ nav ↔ shown (available_jobs request)) ∧
  (("My Applications", "my_applications") ∈ nav
     ↔ shown (my_applications request)) ∧
  last nav = Some ("Logout", "logout").
Proof.
  intros Hu Hm nav shown. subst nav shown. unfold navbar_links_for.
  unfold post_job, my_jobs, available_jobs, my_applications, run, login_required.
  rewrite Hu, Hm. unfold mbind, View_bind, mret, View_ret.
  rewrite !require_role_run.
  destruct (profiles db !! user) as [[[] created]|]; simpl;
    split_and!; try done;
    (split; [rewrite ?elem_of_cons, ?elem_of_nil|]);
    try (intros _; view_unfold; by eexists _, _, _);
    try (intros (t & c & n & [=])); try naive_solver.
  all: set_solver.
Qed.

Lemma navbar_links_open_pages_witness :
  ("Post Job", "post_job") ∈ navbar_links_for (Some 1) Demo.db ∧
  ("Post Job", "post_job") ∉ navbar_links_for (Some 2) Demo.db.
Proof.
  split.
  - apply (navbar_links_open_pages Demo.no_int (Demo.as_user 1 GET []) 1 Demo.db
             eq_refl eq_refl).
    by eexists _, _, _.
  - intros Hin.
    apply (navbar_links_open_pages Demo.no_int (Demo.as_user 2 GET []) 2 Demo.db
             eq_refl eq_refl) in Hin as (t & c & n & Hr).
    vm_compute in Hr. discriminate.
Defined.

(** ** Keys *)

Lemma lookup_insert_new {A} (t : gmap nat A) (k pk : nat) (x y : A) :
  <[pk := x]> t !! k = Some y → t !! k = None → k = pk.
Proof.
  intros Hl Hn. destruct (decide (pk = k)) as [E|E]; [done|].
  rewrite lookup_insert_ne in Hl by done. congruence.
Qed.

(** X25. A key is given once.  Whatever the request, the sequence of the
    application table does not go down, and an application that is there
    afterwards and was not there before has a key above the sequence as it
    was and at most the sequence as it is; the same for messages.  So a
    key that was given before, also to a row deleted since, is not given
    to a new row. *)
Theorem keys_given_once (rt : Runtime) (route : Route) (request : Request)
    (db : DB) :
  let db' := (serve rt route request db).2 in
  (seq_applications db ≤ seq_applications db')%nat ∧
  (∀ k a, applications db' !! k = Some a → applications db !! k = None →
     (seq_applications db < k ≤ seq_applications db')%nat) ∧
  (seq_messages db ≤ seq_messages db')%nat ∧
  (∀ k m, messages db' !! k = Some m → messages db !! k = None →
     (seq_messages db < k ≤ seq_messages db')%nat).
Proof.
  destruct route; view_unfold; view_cases; split_and!; try done;
    try (intros k x Hl Hn; congruence);
    try (match goal with |- (_ ≤ next_pk ?q ?t)%nat =>
           pose proof (next_pk_above q t); lia end);
    intros k x Hl Hn.
  - apply lookup_insert_new in Hl; [|done]. subst k.
    split; [apply next_pk_above|done].
  - exfalso. rewrite lookup_insert in Hl. case_decide; simplify_eq.
  - exfalso. rewrite lookup_insert in Hl. case_decide; simplify_eq.
  - apply lookup_insert_new in Hl; [|by rewrite qs_update_lookup, Hn]. subst k.
    split; [apply next_pk_above|done].
  - by rewrite qs_update_lookup, Hn in Hl.
  - by rewrite qs_update_lookup, Hn in Hl.
  - apply qs_delete_lookup_Some in Hl as [? _]. congruence.
  - by rewrite qs_update_lookup, Hn in Hl.
  - apply lookup_delete_Some in Hl as [_ ?]. congruence.
Qed.

Lemma keys_given_once_witness :
  let db1 := (serve Demo.runtime (url_reject_application 4)
                (Demo.as_user 1 POST []) Demo.db).2 in
  let db2 := (serve Demo.runtime (url_delete_application 4)
                (Demo.as_user 3 POST []) db1).2 in
  let db3 := (serve Demo.runtime (url_apply_job 1)
                (Demo.as_user 3 POST [("applicant_name", "f2");
                                      ("proposal", "again")]) db2).2 in
  applications db2 !! 4 = None ∧
  applications db3 !! 4 = None ∧
  applications db3 !! 5 = Some (mkApplication 1 (Some 3) "f2" "again" Pending 20) ∧
  (seq_applications db2 < 5 ≤ seq_applications db3)%nat.
Proof.
  intros db1 db2 db3.
  split; [reflexivity|]. split; [reflexivity|]. split; [reflexivity|].
  apply (proj1 (proj2 (keys_given_once Demo.runtime (url_apply_job 1)
           (Demo.as_user 3 POST [("applicant_name", "f2"); ("proposal", "again")])
           db2)) 5 (mkApplication 1 (Some 3) "f2" "again" Pending 20));
    reflexivity.
Defined.
